(** * Viterbi decoding of a two-state HMM: the three C programs

    A shallow embedding of

    - [C_implementation/viterbi.c] and
      [C_implementation/poisson_sampling/viterbi.c] (Poisson emissions; the
      two files share the decoder text verbatim and differ only in how the
      sequence file is read), and
    - [C_implementation/durbin_example/viterbi_durbin.c] (the six-sided die
      of Durbin et al., emissions looked up in a table).

    C [double] is IEEE binary64, modelled by Rocq's primitive [float]; C [int]
    is a 32-bit two's complement integer, modelled by [Z] with its wrap-around
    written out.  The functions of [math.h] are not part of the repository and
    are taken as an interface ([libm]).  Arrays are lists; an access outside
    an array is undefined in C and is a failure ([None]) here. *)

From Stdlib Require Import ZArith Floats Uint63 Lia String.
From stdpp Require Import base option list.

Set Warnings "-inexact-float".

(** ** C scalars *)

Module C.

Local Open Scope Z_scope.

Definition INT_MIN : Z := -2147483648.
Definition INT_MAX : Z := 2147483647.

Definition is_int (z : Z) : Prop := INT_MIN <= z <= INT_MAX.

(** Two's complement wrap-around of a mathematical result to [int]. *)
Definition wrap_int (z : Z) : Z := (z + 2 ^ 31) mod 2 ^ 32 - 2 ^ 31.

(** [(double) z] for an [int] [z]: exact, every [int] is a binary64 value. *)
Definition double_of_int (z : Z) : float :=
  if z <? 0 then PrimFloat.opp (PrimFloat.of_uint63 (Uint63.of_Z (- z)))
  else PrimFloat.of_uint63 (Uint63.of_Z z).

(** The integral part of a finite [double] (rounding toward zero). *)
Definition trunc (x : float) : option Z :=
  match Prim2SF x with
  | S754_zero _ => Some 0
  | S754_finite s m e =>
      let v := if 0 <=? e then Z.pos m * 2 ^ e else Z.pos m / 2 ^ (- e) in
      Some (if s then - v else v)
  | S754_infinity _ | S754_nan => None
  end.

(** [(int) x] for a [double] [x]: the integral part when it is an [int].
    For NaN, the infinities and integral parts outside [int] the conversion
    is undefined in C; the value taken here is the one the x86-64 conversion
    instruction delivers, [INT_MIN]. *)
Definition int_of_double (x : float) : Z :=
  match trunc x with
  | Some z => if decide (INT_MIN <= z <= INT_MAX) then z else INT_MIN
  | None => INT_MIN
  end.

End C.

(** ** The functions of [math.h] the programs call *)

Class libm := Libm {
  log : float -> float;
  exp : float -> float;
  pow : float -> float -> float
}.

(** ** Arrays *)

(** A row index that the tables of the programs have: a state. *)
Definition bit (z : Z) : Prop := z = 0%Z \/ z = 1%Z.

(** A [double **] table with its rows: [m !! j] is row [j]. *)
Abbreviation mat := (list (list float)).

(** [l[i] = v] *)
Definition lset {A : Type} (l : list A) (i : nat) (v : A) : option (list A) :=
  if decide (i < length l)%nat then Some (<[i := v]> l) else None.

(** [m[j][i]] *)
Definition mget (m : mat) (j i : nat) : option float :=
  row ← m !! j; row !! i.

(** [m[j][i] = v] *)
Definition mset (m : mat) (j i : nat) (v : float) : option mat :=
  row ← m !! j; row' ← lset row i v; Some (<[j := row']> m).

(** [m[z][i]] for a row index held in an [int]. *)
Definition mget_int (m : mat) (z : Z) (i : nat) : option float :=
  if decide (0 <= z)%Z then mget m (Z.to_nat z) i else None.

(** A table of [r] rows of [c] cells each. *)
Definition shape (r c : nat) (m : mat) : Prop :=
  length m = r /\ forall j row, m !! j = Some row -> length row = c.

(** ** Loops *)

(** [for (i in ixs) s = body(i, s)], stopping at the first failure. *)
Fixpoint for_each {S : Type} (body : nat -> S -> option S) (ixs : list nat)
    (s : S) : option S :=
  match ixs with
  | [] => Some s
  | i :: ixs' => s' ← body i s; for_each body ixs' s'
  end.

(** ** The decoder

    The three programs run the same two loops over the same three tables.
    They differ in four places, which are the parameters of this section:
    their [max] and [argmax] helpers, the transition table [a] and the
    emission term of the recursion ([emission i j] is the term added into
    [vprob[j][i]]; it fails when computing it reads outside an array). *)

(** The working storage of one decode.  [written] is not in the programs: it
    records, in order, the cells of [vprob] that were assigned. *)
Record tables := Tables {
  vprob : mat;
  ptr : mat;
  pi : mat;
  path : list Z;
  written : list (nat * nat)
}.

(** What the allocator hands out.  [malloc] returns storage whose contents
    are indeterminate: whatever the heap held, which is [heap] here, cell by
    cell.  [calloc] returns zeroed storage, which is the heap [zeroed]. *)
Record heap := Heap {
  h_path : nat -> Z;
  h_vprob : nat -> nat -> float;
  h_ptr : nat -> nat -> float;
  h_pi : nat -> nat -> float
}.

Definition zeroed : heap :=
  {| h_path := fun _ => 0%Z;
     h_vprob := fun _ _ => 0%float;
     h_ptr := fun _ _ => 0%float;
     h_pi := fun _ _ => 0%float |}.

(** A heap that earlier allocations have used: another thing [malloc] may
    hand out. *)
Definition stale : heap :=
  {| h_path := fun _ => 7%Z;
     h_vprob := fun _ _ => 0.25%float;
     h_ptr := fun _ _ => 3%float;
     h_pi := fun j _ => if decide (j = 0%nat) then 2%float else 1%float |}.

(** Two rows of [n] cells.  (The programs allocate [n] row pointers and use
    the first two; the rows beyond are never allocated, so that a row index
    other than 0 and 1 is outside the table.  For [n = 1] the array of row
    pointers has a single slot and the programs store the second row pointer
    outside it; the tables have their two rows here all the same, so that a
    decode of one observation is followed as it runs when that store does
    no harm.  What is proved below of a single observation is proved of that
    run; that a decode stays inside its arrays is proved of two observations
    or more.) *)
Definition fresh_mat (g : nat -> nat -> float) (n : nat) : mat :=
  [g 0 <$> seq 0 n; g 1 <$> seq 0 n].

Definition alloc (h : heap) (n : nat) : tables :=
  {| vprob := fresh_mat (h_vprob h) n;
     ptr := fresh_mat (h_ptr h) n;
     pi := fresh_mat (h_pi h) n;
     path := h_path h <$> seq 0 n;
     written := [] |}.

(** [vprob[0][0] = 1; vprob[1][0] = 0;] *)
Definition init (t : tables) : option tables :=
  vp ← mset (vprob t) 0 0 1%float;
  vp' ← mset vp 1 0 0%float;
  Some {| vprob := vp'; ptr := ptr t; pi := pi t; path := path t;
          written := written t ++ [(0, 0); (1, 0)] |}.

Section Decoder.

Context (vmax : float -> float -> float) (vargmax : float -> float -> Z).
Context (a : mat) (emission : nat -> nat -> option float).

(** The body of the inner loop, at column [i] and state [j]. *)
Definition cell (i j : nat) (t : tables) : option tables :=
  v0 ← mget (vprob t) 0 (i - 1);
  a0 ← mget a 0 j;
  v1 ← mget (vprob t) 1 (i - 1);
  a1 ← mget a 1 j;
  let row0 := (v0 + a0)%float in
  let row1 := (v1 + a1)%float in
  em ← emission i j;
  vp ← mset (vprob t) j i (em + vmax row0 row1)%float;
  pt ← mset (ptr t) j i (C.double_of_int (vargmax row0 row1));
  pp ← mset (pi t) j i (vmax row0 row1);
  Some {| vprob := vp; ptr := pt; pi := pp; path := path t;
          written := written t ++ [(j, i)] |}.

(** [for (int j = 0; j < 2; j++)] *)
Definition column (i : nat) (t : tables) : option tables :=
  for_each (cell i) [0; 1] t.

(** [for (int i = 1; i < n; i++)] *)
Definition forward (n : nat) (t : tables) : option tables :=
  for_each column (seq 1 (n - 1)) t.

(** [path[i] = ptr[path[i + 1]][i + 1];] the [double] read from [ptr] is
    converted to [int] by the assignment. *)
Definition back (i : nat) (t : tables) : option tables :=
  s ← path t !! (i + 1);
  p ← mget_int (ptr t) s (i + 1);
  pth ← lset (path t) i (C.int_of_double p);
  Some {| vprob := vprob t; ptr := ptr t; pi := pi t; path := pth;
          written := written t |}.

(** [path[n - 1] = argmax(pi[0][n - 1], pi[1][n - 1]);] and then
    [for (int i = n - 2; i > 0; i--)].  For [n = 0] the first assignment is
    at index -1; no table has a cell there and the reads before it fail. *)
Definition traceback (n : nat) (t : tables) : option tables :=
  p0 ← mget (pi t) 0 (n - 1);
  p1 ← mget (pi t) 1 (n - 1);
  pth ← lset (path t) (n - 1) (vargmax p0 p1);
  for_each back (rev (seq 1 (n - 2)))
    {| vprob := vprob t; ptr := ptr t; pi := pi t; path := pth;
       written := written t |}.

(** Allocation, initialisation and the recursion up to the moment its
    outer loop tests [i < n] with [i = m]. *)
Definition reached (h : heap) (n m : nat) : option tables :=
  t0 ← init (alloc h n); forward m t0.

(** The tables as the traceback finds them: the loop has left with [i = n]. *)
Definition fill (h : heap) (n : nat) : option tables :=
  reached h n n.

(** The whole decode. *)
Definition decode (h : heap) (n : nat) : option tables :=
  t ← fill h n; traceback n t.

End Decoder.

(** ** [viterbi.c] and [poisson_sampling/viterbi.c] *)

Module Poisson.

Section WithLibm.

Context {M : libm}.

Definition max (a b : float) : float :=
  if (b <? a)%float then a
  else if (a <? b)%float then b
  else b.

(** The last [return] hands the [double] [row1] to a function returning
    [int]: it is converted. *)
Definition argmax (row0 row1 : float) : Z :=
  if (row1 <? row0)%float then 0%Z
  else if (row0 <? row1)%float then 1%Z
  else C.int_of_double row1.

(** [for (int i = ...; i > 0; i--) factk *= i;] in [int] arithmetic. *)
Fixpoint factk_loop (i : nat) (factk : Z) : Z :=
  match i with
  | O => factk
  | S i' => factk_loop i' (C.wrap_int (factk * Z.of_nat i))
  end.

(** The value of [factk] when [poisson] returns. *)
Definition factk (k : float) : Z :=
  if (k =? 0)%float then 1%Z
  else factk_loop (Z.to_nat (C.int_of_double (k - 1)%float)) (C.int_of_double k).

Definition poisson (k lambda : float) : float :=
  ((pow lambda k * exp (- lambda)) / C.double_of_int (factk k))%float.

Definition a : mat :=
  [ [log 0.9551; log 0.0449];
    [log 0.0880; log 0.9120] ]%float.

Definition e : list float := [1.8234; 5.7812]%float.

(** [log( poisson(seq[i - 1], e[j]) )] *)
Definition emission (seq : list Z) (i j : nat) : option float :=
  k ← seq !! (i - 1);
  lambda ← e !! j;
  Some (log (poisson (C.double_of_int k) lambda)).

(** The decoder of [main], on the [n = length seq] numbers of the sequence
    file ([n] is a command line argument in [viterbi.c] and the count of the
    numbers read in [poisson_sampling/viterbi.c]).  Every table comes from
    [calloc].  [scores] is the state when the recursion is over, [viterbi]
    the state when the traceback is. *)
Definition scores (seq : list Z) : option tables :=
  fill max argmax a (emission seq) zeroed (length seq).

(** The state when the outer loop of the recursion tests [i < n] with
    [i = m]. *)
Definition during (seq : list Z) (m : nat) : option tables :=
  reached max argmax a (emission seq) zeroed (length seq) m.

Definition viterbi (seq : list Z) : option tables :=
  decode max argmax a (emission seq) zeroed (length seq).

(** [path[i]++] before printing: states are shown as 1 and 2. *)
Definition main (seq : list Z) : option (list Z) :=
  t ← viterbi seq; Some ((fun s => C.wrap_int (s + 1)) <$> path t).

End WithLibm.

(** The reading loop of [main] in [viterbi.c], which runs [n] times
    [fscanf(seqf, "%i", &num); seq[i] = num;].  [file] is the list of the
    numbers the file holds; a [fscanf] that finds no further number assigns
    nothing and leaves [num] as it was.  [num] is the value the variable
    holds when the loop starts (it is not initialised). *)
Fixpoint read_sequence (n : nat) (file : list Z) (num : Z) : list Z :=
  match n with
  | O => []
  | S n' =>
      match file with
      | [] => num :: read_sequence n' [] num
      | x :: rest => x :: read_sequence n' rest x
      end
  end.

End Poisson.

(** ** [durbin_example/viterbi_durbin.c] *)

Module Durbin.

Section WithLibm.

Context {M : libm}.

Definition max (a b : float) : float :=
  if (b <? a)%float then a else b.

Definition argmax (row0 row1 : float) : Z :=
  if (row1 <? row0)%float then 0%Z else 1%Z.

(** [sequence[n] = num - 1;] for every number of the file. *)
Definition read_sequencefile (file : list Z) : list Z :=
  (fun num => C.wrap_int (num - 1)) <$> file.

Definition a : mat :=
  [ [log 0.95; log 0.05];
    [log 0.1; log 0.9] ]%float.

Definition e : mat :=
  [ [log (1 / 6); log 0.1];
    [log (1 / 6); log 0.1];
    [log (1 / 6); log 0.1];
    [log (1 / 6); log 0.1];
    [log (1 / 6); log 0.1];
    [log (1 / 6); log 0.5] ]%float.

(** [e[seq[i]][j]] *)
Definition emission (seq : list Z) (i j : nat) : option float :=
  s ← seq !! i; mget_int e s j.

(** A stored symbol that is a row of [e]. *)
Definition in_table (s : Z) : Prop := (0 <= s < 6)%Z.

(** Every table comes from [malloc].  [scores] is the state when the
    recursion is over, [run_viterbi] the state when the traceback is. *)
Definition scores (h : heap) (seq : list Z) : option tables :=
  fill max argmax a (emission seq) h (length seq).

(** The state when the outer loop of the recursion tests [i < seq_length]
    with [i = m]. *)
Definition during (h : heap) (seq : list Z) (m : nat) : option tables :=
  reached max argmax a (emission seq) h (length seq) m.

Definition run_viterbi (h : heap) (seq : list Z) : option tables :=
  decode max argmax a (emission seq) h (length seq).

(** What the printing loop writes after its heading: a line break before
    every 60th state, [F] for 0, [L] for 1 and nothing for another value. *)
Definition newline : string := String (Ascii.ascii_of_nat 10) EmptyString.

Definition show_state (i : nat) (s : Z) : string :=
  ((if decide (i mod 60 = 0 /\ i <> 0)%nat then newline else EmptyString) ++
   (if decide (s = 0%Z) then "F" else EmptyString) ++
   (if decide (s = 1%Z) then "L" else EmptyString))%string.

Definition show (path : list Z) : string :=
  (String.concat EmptyString (imap show_state path) ++ newline)%string.

Definition main (h : heap) (file : list Z) : option tables :=
  run_viterbi h (read_sequencefile file).

End WithLibm.

End Durbin.

(** ** A table of [math.h] values

    The correctly rounded binary64 values of [log], [exp] and [pow] at the
    arguments that the runs evaluated below reach (the constants of the
    programs among them); NaN at every other argument, which those runs never
    ask for. *)

Module Rounded.

Definition at1 (tbl : list (float * float)) (x : float) : float :=
  match List.find (fun p => (fst p =? x)%float) tbl with
  | Some p => snd p
  | None => nan
  end.

Definition at2 (tbl : list (float * float * float)) (x y : float) : float :=
  match List.find (fun p => (fst (fst p) =? x)%float && (snd (fst p) =? y)%float) tbl with
  | Some p => snd p
  | None => nan
  end.

Definition log_points : list (float * float) :=
  [ (0.95, -0x1.a431d5bcc193ep-5);
    (0.05, -0x1.7f7427b73e391p+1);
    (0.1, -0x1.26bb1bbb55515p+1);
    (0.9, -0x1.af8e8210a415cp-4);
    (1 / 6, -0x1.cab0bfa2a2002p+0);
    (0.5, -0x1.62e42fefa39efp-1);
    (0.9551, -0x1.78558d5956f6fp-5);
    (0.0449, -0x1.8d3981dff1e24p+1);
    (0.0880, -0x1.3717f3c651c82p+1);
    (0.9120, -0x1.794de195213f0p-4);
    (0x1.4ab3d2d887da5p-3, -0x1.d2ca57a786c22p+0);
    (0x1.945bcc307a192p-9, -0x1.71ff2e48e8a72p+2);
    (infinity, infinity);
    (0x1.ba0ff53f1cdd2p-23, -0x1.ecacf26e45fa6p+3);
    (0x1.1251172e99b64p-24, -0x1.091015010314dp+4);
    (0x1.a59ec7eca30e0p-7, -0x1.16993c1b11ec5p+2) ]%float.

Definition exp_points : list (float * float) :=
  [ (-1.8234, 0x1.4ab3d2d887da5p-3);
    (-5.7812, 0x1.945bcc307a192p-9) ]%float.

Definition pow_points : list (float * float * float) :=
  [ (1.8234, 0, 1);
    (5.7812, 0, 1);
    (1.8234, 13, 0x1.33e02bddb7100p+11);
    (1.8234, 34, 0x1.61791f1d11badp+29);
    (5.7812, 34, 0x1.0c15b32ba8f9ep+86);
    (5.7812, 13, 0x1.e04d35222941ap+32) ]%float.

Definition points : libm :=
  {| log := at1 log_points; exp := at1 exp_points; pow := at2 pow_points |}.

End Rounded.

(** * Properties of the model *)

(** ** Arrays and loops *)

Lemma lset_Some {A} (l : list A) i v :
  (i < length l)%nat -> lset l i v = Some (<[i := v]> l).
Proof. intros Hi. unfold lset. by rewrite decide_True. Qed.

Lemma lset_inv {A} (l l' : list A) i v :
  lset l i v = Some l' -> (i < length l)%nat /\ l' = <[i := v]> l.
Proof. unfold lset. case_decide; naive_solver. Qed.

Lemma mget_is_Some r c (m : mat) j i :
  shape r c m -> (j < r)%nat -> (i < c)%nat -> is_Some (mget m j i).
Proof.
  intros [Hr Hc] Hj Hi. unfold mget.
  destruct (lookup_lt_is_Some_2 m j) as [row Hrow]; [lia |].
  rewrite Hrow. simpl. apply lookup_lt_is_Some_2.
  rewrite (Hc _ _ Hrow). done.
Qed.

Lemma mset_Some r c (m : mat) j i v :
  shape r c m -> (j < r)%nat -> (i < c)%nat ->
  exists m', mset m j i v = Some m' /\ shape r c m' /\
    mget m' j i = Some v /\
    forall j' i', (j', i') <> (j, i) -> mget m' j' i' = mget m j' i'.
Proof.
  intros [Hr Hc] Hj Hi. unfold mset.
  destruct (lookup_lt_is_Some_2 m j) as [row Hrow]; [lia |].
  pose proof (Hc _ _ Hrow) as Hlen.
  rewrite Hrow. simpl. rewrite lset_Some by lia. simpl.
  eexists. split; [done |]. split; [| split].
  - split; [by rewrite length_insert |].
    intros j' row' Hj'. destruct (decide (j = j')) as [<- |].
    + rewrite list_lookup_insert_eq in Hj' by lia.
      injection Hj' as <-. by rewrite length_insert.
    + rewrite list_lookup_insert_ne in Hj' by done. eauto.
  - unfold mget. rewrite list_lookup_insert_eq by lia. simpl.
    apply list_lookup_insert_eq. lia.
  - intros j' i' Hne. unfold mget. destruct (decide (j = j')) as [<- |].
    + rewrite list_lookup_insert_eq by lia. rewrite Hrow. simpl.
      apply list_lookup_insert_ne. congruence.
    + by rewrite list_lookup_insert_ne.
Qed.

Lemma for_each_app {S} (body : nat -> S -> option S) ixs1 ixs2 s :
  for_each body (ixs1 ++ ixs2) s = s' ← for_each body ixs1 s; for_each body ixs2 s'.
Proof.
  revert s. induction ixs1 as [| i ixs1 IH]; intros s; simpl; [done |].
  destruct (body i s) as [s' |]; simpl; [apply IH | done].
Qed.

Lemma for_each_ran {S} (body : nat -> S -> option S) ixs s s' i :
  for_each body ixs s = Some s' -> i ∈ ixs ->
  exists s1 s2, body i s1 = Some s2.
Proof.
  revert s. induction ixs as [| i0 ixs IH]; intros s Hrun Hin.
  - by apply elem_of_nil in Hin.
  - simpl in Hrun. destruct (body i0 s) as [s0 |] eqn:E; simpl in Hrun; [| done].
    apply elem_of_cons in Hin as [-> | Hin]; eauto.
Qed.

Lemma shape_fresh_mat g n : shape 2 n (fresh_mat g n).
Proof.
  split; [done |]. intros j row Hrow.
  destruct j as [| [| j]]; simpl in Hrow; [| | done];
    injection Hrow as <-; by rewrite length_fmap, length_seq.
Qed.

(** ** The recursion *)

(** Every table has two rows of [n] cells and [path] has [n] cells. *)
Definition dims (n : nat) (t : tables) : Prop :=
  shape 2 n (vprob t) /\ shape 2 n (ptr t) /\ shape 2 n (pi t) /\
  length (path t) = n.

(** [t'] holds what [t] holds in the cells selected by [P]. *)
Definition agree (P : nat -> nat -> Prop) (t t' : tables) : Prop :=
  forall j i, P j i ->
    mget (vprob t') j i = mget (vprob t) j i /\
    mget (ptr t') j i = mget (ptr t) j i /\
    mget (pi t') j i = mget (pi t) j i.

Lemma agree_refl P t : agree P t t.
Proof. by intros j i _. Qed.

Lemma agree_trans (P Q R : nat -> nat -> Prop) t1 t2 t3 :
  agree P t1 t2 -> agree Q t2 t3 ->
  (forall j i, R j i -> P j i /\ Q j i) -> agree R t1 t3.
Proof.
  intros H12 H23 HR j i Hji. destruct (HR _ _ Hji) as [HP HQ].
  destruct (H12 _ _ HP) as (E1 & E2 & E3).
  destruct (H23 _ _ HQ) as (F1 & F2 & F3). by rewrite F1, F2, F3.
Qed.

Lemma init_run h n :
  (1 <= n)%nat ->
  exists t0, init (alloc h n) = Some t0 /\ dims n t0 /\
    path t0 = h_path h <$> seq 0 n /\
    written t0 = [(0, 0); (1, 0)]%nat /\
    mget (vprob t0) 0 0 = Some 1%float /\
    mget (vprob t0) 1 0 = Some 0%float /\
    ptr t0 = fresh_mat (h_ptr h) n /\ pi t0 = fresh_mat (h_pi h) n /\
    forall j i, (1 <= i)%nat ->
      mget (vprob t0) j i = mget (fresh_mat (h_vprob h) n) j i.
Proof.
  intros Hn. unfold init. simpl.
  destruct (mset_Some 2 n (fresh_mat (h_vprob h) n) 0 0 1%float)
    as (vp & E & S & G & F); [apply shape_fresh_mat | lia | lia |].
  destruct (mset_Some 2 n vp 1 0 0%float) as (vp' & E' & S' & G' & F');
    [done | lia | lia |].
  rewrite E. simpl. rewrite E'. simpl. eexists. split; [done |]. simpl.
  split.
  { unfold dims. simpl. split; [done |].
    split; [apply shape_fresh_mat |]. split; [apply shape_fresh_mat |].
    by rewrite length_fmap, length_seq. }
  split; [done |]. split; [done |].
  split; [by rewrite F' |]. split; [done |]. split; [done |]. split; [done |].
  intros j i Hi. rewrite F', F; [done | |]; intros [= ? ?]; lia.
Qed.

Lemma init_empty h : init (alloc h 0) = None.
Proof. done. Qed.

(** The cells of [vprob] in columns [1 .. k], in the order of the loops. *)
Definition cells (k : nat) : list (nat * nat) :=
  flat_map (fun i => [(0, i); (1, i)]%nat) (seq 1 k).

Lemma elem_of_cells k j i :
  (j, i) ∈ cells k <-> (j = 0 \/ j = 1)%nat /\ (1 <= i <= k)%nat.
Proof.
  unfold cells. rewrite list_elem_of_In, in_flat_map. split.
  - intros (i' & Hi' & Hin). apply in_seq in Hi'.
    destruct Hin as [[= <- <-] | [[= <- <-] | []]]; lia.
  - intros [Hj Hi]. exists i. split; [apply in_seq; lia |].
    destruct Hj as [-> | ->]; simpl; auto.
Qed.

Lemma NoDup_cells k : NoDup (cells k).
Proof.
  induction k as [| k IH]; [constructor |].
  unfold cells in *. rewrite seq_S, flat_map_app. simpl.
  apply NoDup_app. split; [done |]. split.
  - intros [j i] Hin Hin'. apply elem_of_cells in Hin as [_ Hi].
    apply elem_of_cons in Hin' as [[= ? ?] | Hin']; [lia |].
    apply elem_of_cons in Hin' as [[= ? ?] | Hin']; [lia |].
    by apply elem_of_nil in Hin'.
  - apply NoDup_cons. split; [| apply NoDup_singleton].
    intros Hin. by apply list_elem_of_singleton in Hin.
Qed.

Lemma NoDup_written k : NoDup ([(0, 0); (1, 0)]%nat ++ cells k).
Proof.
  apply NoDup_app. split; [| split; [| apply NoDup_cells]].
  - apply NoDup_cons. split; [| apply NoDup_singleton].
    intros Hin. by apply list_elem_of_singleton in Hin.
  - intros [j i] Hin Hin'. apply elem_of_cells in Hin' as [_ Hi].
    apply elem_of_cons in Hin as [[= ? ?] | Hin]; [lia |].
    apply elem_of_cons in Hin as [[= ? ?] | Hin]; [lia |].
    by apply elem_of_nil in Hin.
Qed.

Section DecoderFacts.

Context (vmax : float -> float -> float) (vargmax : float -> float -> Z).
Context (a : mat) (emission : nat -> nat -> option float).
Hypothesis a_shape : shape 2 2 a.

(** What column [i], state [j] of the three tables holds once it is filled:
    the emission term plus the larger predecessor score in [vprob], the
    choice of [vargmax] in [ptr], the larger predecessor score in [pi]. *)
Definition filled (t : tables) (i j : nat) : Prop :=
  exists v0 v1 a0 a1 em,
    mget (vprob t) 0 (i - 1) = Some v0 /\ mget (vprob t) 1 (i - 1) = Some v1 /\
    mget a 0 j = Some a0 /\ mget a 1 j = Some a1 /\
    emission i j = Some em /\
    mget (vprob t) j i = Some (em + vmax (v0 + a0) (v1 + a1))%float /\
    mget (ptr t) j i = Some (C.double_of_int (vargmax (v0 + a0) (v1 + a1))%float) /\
    mget (pi t) j i = Some (vmax (v0 + a0) (v1 + a1))%float.

Lemma filled_agree t t' i j :
  filled t i j ->
  agree (fun j' i' => i' = (i - 1)%nat \/ (j', i') = (j, i)) t t' ->
  filled t' i j.
Proof.
  intros (v0 & v1 & a0 & a1 & em & H0 & H1 & Ha0 & Ha1 & Hem & HV & HP & HPi) Hag.
  exists v0, v1, a0, a1, em.
  destruct (Hag 0%nat (i - 1)%nat) as (-> & _); [by left |].
  destruct (Hag 1%nat (i - 1)%nat) as (-> & _); [by left |].
  destruct (Hag j i) as (-> & -> & ->); [by right |].
  done.
Qed.

Lemma cell_run n t i j em :
  dims n t -> (1 <= i)%nat -> (i < n)%nat -> (j < 2)%nat ->
  emission i j = Some em ->
  exists t', cell vmax vargmax a emission i j t = Some t' /\ dims n t' /\
    path t' = path t /\ written t' = written t ++ [(j, i)] /\
    agree (fun j' i' => (j', i') <> (j, i)) t t' /\ filled t' i j.
Proof.
  intros (HV & HP & HPi & Hpath) Hi1 Hin Hj Hem.
  destruct (mget_is_Some 2 n (vprob t) 0 (i - 1)) as [v0 H0]; [done | lia | lia |].
  destruct (mget_is_Some 2 n (vprob t) 1 (i - 1)) as [v1 H1]; [done | lia | lia |].
  destruct (mget_is_Some 2 2 a 0 j) as [a0 Ha0]; [done | lia | lia |].
  destruct (mget_is_Some 2 2 a 1 j) as [a1 Ha1]; [done | lia | lia |].
  set (m := vmax (v0 + a0)%float (v1 + a1)%float).
  destruct (mset_Some 2 n (vprob t) j i (em + m)%float) as (vp & Evp & Svp & Gvp & Fvp);
    [done .. |].
  destruct (mset_Some 2 n (ptr t) j i
              (C.double_of_int (vargmax (v0 + a0)%float (v1 + a1)%float)))
    as (pt & Ept & Spt & Gpt & Fpt); [done .. |].
  destruct (mset_Some 2 n (pi t) j i m) as (pp & Epp & Spp & Gpp & Fpp); [done .. |].
  unfold cell. rewrite H0, Ha0, H1, Ha1, Hem. simpl.
  fold m. rewrite Evp, Ept, Epp. simpl.
  eexists. split; [done |]. simpl.
  split; [done |]. split; [done |]. split; [done |]. split.
  - intros j' i' Hne. simpl. auto.
  - exists v0, v1, a0, a1, em. simpl.
    rewrite !Fvp by (intros [= ? ?]; lia). done.
Qed.

Lemma cell_needs_emission t t' i j :
  cell vmax vargmax a emission i j t = Some t' -> is_Some (emission i j).
Proof.
  unfold cell. intros H.
  do 4 (apply bind_Some in H as (? & _ & H)). simpl in H.
  apply bind_Some in H as (em & Hem & _). eauto.
Qed.

Lemma column_run n t i :
  dims n t -> (1 <= i)%nat -> (i < n)%nat ->
  (forall j, (j < 2)%nat -> is_Some (emission i j)) ->
  exists t', column vmax vargmax a emission i t = Some t' /\ dims n t' /\
    path t' = path t /\ written t' = written t ++ [(0, i); (1, i)]%nat /\
    agree (fun _ i' => i' <> i) t t' /\ filled t' i 0 /\ filled t' i 1.
Proof.
  intros Hd Hi1 Hin Hem.
  destruct (Hem 0%nat) as [e0 He0]; [lia |].
  destruct (Hem 1%nat) as [e1 He1]; [lia |].
  destruct (cell_run n t i 0 e0) as (t1 & E1 & D1 & P1 & W1 & A1 & F1);
    [done | done | done | lia | done |].
  destruct (cell_run n t1 i 1 e1) as (t2 & E2 & D2 & P2 & W2 & A2 & F2);
    [done | done | done | lia | done |].
  exists t2. unfold column. simpl. rewrite E1. simpl. rewrite E2. simpl.
  split; [done |]. split; [done |]. split; [congruence |].
  split; [by rewrite W2, W1, <- app_assoc |].
  split; [| split; [| done]].
  - eapply agree_trans; [exact A1 | exact A2 |].
    intros j' i' Hne. split; intros [= ? ?]; congruence.
  - eapply filled_agree; [exact F1 |].
    intros j' i' Hsel. apply A2. intros [= ? ?].
    destruct Hsel as [-> | [= ? ?]]; [lia | congruence].
Qed.

Lemma columns_run n t0 k :
  dims n t0 -> (k < n)%nat ->
  (forall i j, (1 <= i <= k)%nat -> (j < 2)%nat -> is_Some (emission i j)) ->
  exists t, for_each (column vmax vargmax a emission) (seq 1 k) t0 = Some t /\
    dims n t /\ path t = path t0 /\ written t = written t0 ++ cells k /\
    agree (fun _ i' => ~ (1 <= i' <= k)%nat) t0 t /\
    forall i j, (1 <= i <= k)%nat -> (j < 2)%nat -> filled t i j.
Proof.
  intros Hd. induction k as [| k IH]; intros Hk Hem.
  - exists t0. simpl. split; [done |]. split; [done |]. split; [done |].
    split; [by rewrite app_nil_r |]. split; [apply agree_refl |].
    intros i j Hi. lia.
  - destruct IH as (t & E & D & P & W & A & F); [lia | |].
    { intros i j Hi. apply Hem. lia. }
    destruct (column_run n t (S k)) as (t' & E' & D' & P' & W' & A' & F0 & F1);
      [done | lia | lia | |].
    { intros j. apply Hem. lia. }
    exists t'. rewrite seq_S, for_each_app, E. simpl. rewrite E'.
    split; [done |]. split; [done |]. split; [congruence |].
    split; [| split].
    + unfold cells. rewrite seq_S, flat_map_app. simpl.
      by rewrite W', W, <- app_assoc.
    + eapply agree_trans; [exact A | exact A' |].
      intros j i Hsel. split; simpl; lia.
    + intros i j Hi Hj. destruct (decide (i = S k)) as [-> |].
      * destruct j as [| [| j]]; [done | done | lia].
      * eapply filled_agree; [apply F; [lia | done] |].
        intros j' i' Hsel. apply A'.
        destruct Hsel as [-> | [= ? ?]]; lia.
Qed.

Lemma forward_needs_emission n t t' i j :
  forward vmax vargmax a emission n t = Some t' ->
  (1 <= i)%nat -> (i < n)%nat -> (j < 2)%nat -> is_Some (emission i j).
Proof.
  intros Hrun Hi1 Hin Hj. unfold forward in Hrun.
  destruct (for_each_ran _ _ _ _ i Hrun) as (s1 & s2 & Hcol).
  { apply elem_of_seq. lia. }
  unfold column in Hcol.
  destruct (for_each_ran _ _ _ _ j Hcol) as (s3 & s4 & Hcell).
  { destruct j as [| [| j]]; [| | lia]; repeat constructor. }
  eapply cell_needs_emission, Hcell.
Qed.

Lemma reached_run h n m :
  (1 <= m <= n)%nat ->
  (forall i j, (1 <= i < m)%nat -> (j < 2)%nat -> is_Some (emission i j)) ->
  exists t0 t, init (alloc h n) = Some t0 /\
    reached vmax vargmax a emission h n m = Some t /\ dims n t /\
    path t = h_path h <$> seq 0 n /\
    written t = [(0, 0); (1, 0)]%nat ++ cells (m - 1) /\
    mget (vprob t) 0 0 = Some 1%float /\ mget (vprob t) 1 0 = Some 0%float /\
    agree (fun _ i' => ~ (1 <= i' < m)%nat) t0 t /\
    forall i j, (1 <= i < m)%nat -> (j < 2)%nat -> filled t i j.
Proof.
  intros Hm Hem.
  destruct (init_run h n) as (t0 & E0 & D0 & P0 & W0 & V00 & V10 & _); [lia |].
  destruct (columns_run n t0 (m - 1)) as (t & E & D & P & W & A & F);
    [done | lia | |].
  { intros i j Hi. apply Hem. lia. }
  exists t0, t. unfold reached, forward. rewrite E0. simpl. rewrite E.
  split; [done |]. split; [done |]. split; [done |].
  split; [congruence |]. split; [by rewrite W, W0 |].
  destruct (A 0%nat 0%nat) as (-> & _); [lia |].
  destruct (A 1%nat 0%nat) as (-> & _); [lia |].
  split; [done |]. split; [done |]. split.
  - intros j i Hsel. apply A. lia.
  - intros i j Hi. apply F. lia.
Qed.

Lemma reached_needs_emission h n m t i j :
  reached vmax vargmax a emission h n m = Some t ->
  (1 <= i)%nat -> (i < m)%nat -> (j < 2)%nat -> is_Some (emission i j).
Proof.
  unfold reached. intros H. apply bind_Some in H as (t0 & _ & H).
  by apply forward_needs_emission with (t := t0) (t' := t).
Qed.

End DecoderFacts.

(** ** The traceback *)

Lemma int_of_double_bit b : bit b -> C.int_of_double (C.double_of_int b) = b.
Proof. by intros [-> | ->]; vm_compute. Qed.

Lemma rev_seq_S m : rev (seq 1 (S m)) = S m :: rev (seq 1 m).
Proof. by rewrite seq_S, rev_app_distr. Qed.

Lemma back_inv t t' i :
  back i t = Some t' ->
  exists s p, path t !! (i + 1)%nat = Some s /\
    mget_int (ptr t) s (i + 1) = Some p /\ (i < length (path t))%nat /\
    t' = {| vprob := vprob t; ptr := ptr t; pi := pi t;
            path := <[i := C.int_of_double p]> (path t);
            written := written t |}.
Proof.
  unfold back. intros H.
  apply bind_Some in H as (s & Hs & H).
  apply bind_Some in H as (p & Hp & H).
  apply bind_Some in H as (pth & Hpth & H).
  apply lset_inv in Hpth as [Hi ->]. injection H as <-.
  by exists s, p.
Qed.

(** The loop of the traceback assigns [path[m] .. path[1]] and nothing else. *)
Lemma back_loop_keeps m t t' :
  for_each back (rev (seq 1 m)) t = Some t' ->
  vprob t' = vprob t /\ ptr t' = ptr t /\ pi t' = pi t /\
  written t' = written t /\ length (path t') = length (path t) /\
  forall i, (i = 0 \/ m < i)%nat -> path t' !! i = path t !! i.
Proof.
  revert t. induction m as [| m IH]; intros t Hrun.
  - simpl in Hrun. by injection Hrun as <-.
  - rewrite rev_seq_S in Hrun. simpl in Hrun.
    apply bind_Some in Hrun as (t1 & Hback & Hrun).
    apply back_inv in Hback as (s & p & _ & _ & _ & ->).
    destruct (IH _ Hrun) as (-> & -> & -> & -> & Hlen & Hpath). simpl in *.
    rewrite length_insert in Hlen.
    repeat (split; [done |]).
    intros i Hi. rewrite Hpath by lia. apply list_lookup_insert_ne. lia.
Qed.

Lemma traceback_inv vargmax n t t' :
  traceback vargmax n t = Some t' -> (1 <= n)%nat -> length (path t) = n ->
  exists p0 p1, mget (pi t) 0 (n - 1) = Some p0 /\
    mget (pi t) 1 (n - 1) = Some p1 /\
    path t' !! (n - 1)%nat = Some (vargmax p0 p1) /\
    vprob t' = vprob t /\ ptr t' = ptr t /\ pi t' = pi t /\
    written t' = written t /\ length (path t') = n /\
    ((2 <= n)%nat -> path t' !! 0%nat = path t !! 0%nat).
Proof.
  unfold traceback. intros H Hn Hlen.
  apply bind_Some in H as (p0 & Hp0 & H).
  apply bind_Some in H as (p1 & Hp1 & H).
  apply bind_Some in H as (pth & Hpth & H).
  apply lset_inv in Hpth as [Hi ->].
  apply back_loop_keeps in H as (-> & -> & -> & -> & Hl & Hpath). simpl in *.
  rewrite length_insert in Hl.
  exists p0, p1. split; [done |]. split; [done |]. split.
  { rewrite Hpath by lia. by apply list_lookup_insert_eq. }
  do 4 (split; [done |]). split; [congruence |].
  intros Hn2. rewrite Hpath by lia. apply list_lookup_insert_ne. lia.
Qed.

(** When every backpointer the loop can read is a state index, the loop
    runs through and leaves state indices in [path[m] .. path[1]]. *)
Lemma back_loop_run n m t :
  length (path t) = n -> (m + 1 < n)%nat ->
  (forall i j, (1 <= i < n)%nat -> (j < 2)%nat ->
     exists b, bit b /\ mget (ptr t) j i = Some (C.double_of_int b)) ->
  (exists s, path t !! (m + 1)%nat = Some s /\ bit s) ->
  exists t', for_each back (rev (seq 1 m)) t = Some t' /\
    forall i, (1 <= i <= m)%nat -> exists s, path t' !! i = Some s /\ bit s.
Proof.
  revert t. induction m as [| m IH]; intros t Hlen Hm Hptr (s & Hs & Hbit).
  - exists t. split; [done |]. intros i Hi. lia.
  - rewrite rev_seq_S. simpl.
    destruct (Hptr (S m + 1)%nat (Z.to_nat s)) as (b & Hb & Hcell); [lia | |].
    { destruct Hbit as [-> | ->]; simpl; lia. }
    set (t1 := {| vprob := vprob t; ptr := ptr t; pi := pi t;
                  path := <[S m := b]> (path t); written := written t |}).
    assert (Hback : back (S m) t = Some t1).
    { unfold back. rewrite Hs. cbn [mbind option_bind]. unfold mget_int.
      rewrite decide_True by (destruct Hbit as [-> | ->]; lia).
      rewrite Hcell. cbn [mbind option_bind]. rewrite lset_Some by lia.
      cbn [mbind option_bind]. by rewrite int_of_double_bit. }
    rewrite Hback. simpl.
    destruct (IH t1) as (t' & Hrun & Hbits).
    + simpl. by rewrite length_insert.
    + lia.
    + done.
    + exists b. split; [| done]. simpl. rewrite Nat.add_1_r.
      apply list_lookup_insert_eq. lia.
    + exists t'. split; [done |]. intros i Hi.
      destruct (decide (i = S m)) as [-> |]; [| apply Hbits; lia].
      apply back_loop_keeps in Hrun as (_ & _ & _ & _ & _ & Hpath).
      rewrite Hpath by lia. exists b. split; [| done]. simpl.
      apply list_lookup_insert_eq. lia.
Qed.

Lemma traceback_run vargmax n t :
  dims n t -> (1 <= n)%nat -> (forall x y, bit (vargmax x y)) ->
  (forall i j, (1 <= i < n)%nat -> (j < 2)%nat ->
     exists b, bit b /\ mget (ptr t) j i = Some (C.double_of_int b)) ->
  exists t', traceback vargmax n t = Some t' /\
    forall i, (1 <= i < n)%nat -> exists s, path t' !! i = Some s /\ bit s.
Proof.
  intros (_ & _ & HPi & Hlen) Hn Hbit Hptr. unfold traceback.
  destruct (mget_is_Some 2 n (pi t) 0 (n - 1)) as [p0 Hp0]; [done | lia | lia |].
  destruct (mget_is_Some 2 n (pi t) 1 (n - 1)) as [p1 Hp1]; [done | lia | lia |].
  rewrite Hp0, Hp1. simpl. rewrite lset_Some by lia. simpl.
  destruct (decide (n = 1)) as [-> |].
  - simpl. eexists. split; [done |]. intros i Hi. lia.
  - set (t1 := {| vprob := vprob t; ptr := ptr t; pi := pi t;
                  path := <[(n - 1)%nat := vargmax p0 p1]> (path t);
                  written := written t |}).
    destruct (back_loop_run n (n - 2) t1) as (t' & Hrun & Hbits).
    + simpl. by rewrite length_insert.
    + lia.
    + done.
    + exists (vargmax p0 p1). split; [| done]. simpl.
      replace (n - 2 + 1)%nat with (n - 1)%nat by lia.
      apply list_lookup_insert_eq. lia.
    + exists t'. split; [done |]. intros i Hi.
      destruct (decide (i = (n - 1)%nat)) as [-> |]; [| apply Hbits; lia].
      apply back_loop_keeps in Hrun as (_ & _ & _ & _ & _ & Hpath).
      rewrite Hpath by lia. exists (vargmax p0 p1). split; [| done]. simpl.
      apply list_lookup_insert_eq. lia.
Qed.

(** ** What the tables and the path are determined by *)

Lemma mget_outside r c (m : mat) j i :
  shape r c m -> (r <= j \/ c <= i)%nat -> mget m j i = None.
Proof.
  intros [Hr Hc] Hji. unfold mget.
  destruct (m !! j) as [row |] eqn:Hrow; simpl; [| done].
  apply lookup_ge_None_2. rewrite (Hc _ _ Hrow).
  apply lookup_lt_Some in Hrow. lia.
Qed.

(** Two runs of the recursion that start from the same first column of
    [vprob] fill the same scores, backpointers and row maxima. *)
Lemma filled_same vmax vargmax a emission n t1 t2 :
  (forall j, (j < 2)%nat -> mget (vprob t1) j 0 = mget (vprob t2) j 0) ->
  (forall i j, (1 <= i < n)%nat -> (j < 2)%nat ->
     filled vmax vargmax a emission t1 i j) ->
  (forall i j, (1 <= i < n)%nat -> (j < 2)%nat ->
     filled vmax vargmax a emission t2 i j) ->
  forall i j, (1 <= i < n)%nat -> (j < 2)%nat ->
    mget (vprob t1) j i = mget (vprob t2) j i /\
    mget (ptr t1) j i = mget (ptr t2) j i /\
    mget (pi t1) j i = mget (pi t2) j i.
Proof.
  intros H0 F1 F2.
  assert (HV : forall i, (i < n)%nat -> forall j, (j < 2)%nat ->
            mget (vprob t1) j i = mget (vprob t2) j i).
  { induction i as [| i IH]; intros Hi j Hj; [by apply H0 |].
    destruct (F1 (S i) j) as (v0 & v1 & a0 & a1 & em & A0 & A1 & Aa0 & Aa1 & Aem & AV & _);
      [lia | done |].
    destruct (F2 (S i) j) as (w0 & w1 & b0 & b1 & em' & B0 & B1 & Ba0 & Ba1 & Bem & BV & _);
      [lia | done |].
    replace (S i - 1)%nat with i in * by lia.
    rewrite (IH ltac:(lia) 0%nat ltac:(lia)) in A0.
    rewrite (IH ltac:(lia) 1%nat ltac:(lia)) in A1.
    rewrite AV, BV. congruence. }
  intros i j Hi Hj. split; [apply HV; [lia | done] |].
  destruct (F1 i j) as (v0 & v1 & a0 & a1 & em & A0 & A1 & Aa0 & Aa1 & _ & _ & AP & APi);
    [lia | done |].
  destruct (F2 i j) as (w0 & w1 & b0 & b1 & em' & B0 & B1 & Ba0 & Ba1 & _ & _ & BP & BPi);
    [lia | done |].
  rewrite (HV (i - 1)%nat ltac:(lia) 0%nat ltac:(lia)) in A0.
  rewrite (HV (i - 1)%nat ltac:(lia) 1%nat ltac:(lia)) in A1.
  rewrite AP, BP, APi, BPi. split; congruence.
Qed.

(** The loop of the traceback reads [ptr] and the path above it only. *)
Lemma back_loop_same m s1 s2 r1 r2 :
  (forall j i, (1 <= i)%nat -> mget (ptr s1) j i = mget (ptr s2) j i) ->
  path s1 !! (m + 1)%nat = path s2 !! (m + 1)%nat ->
  for_each back (rev (seq 1 m)) s1 = Some r1 ->
  for_each back (rev (seq 1 m)) s2 = Some r2 ->
  forall i, (1 <= i <= m + 1)%nat -> path r1 !! i = path r2 !! i.
Proof.
  revert s1 s2. induction m as [| m IH]; intros s1 s2 Hptr Htop H1 H2 i Hi.
  - simpl in H1, H2. injection H1 as <-. injection H2 as <-.
    by replace i with (0 + 1)%nat by lia.
  - rewrite rev_seq_S in H1, H2. simpl in H1, H2.
    apply bind_Some in H1 as (u1 & B1 & H1).
    apply bind_Some in H2 as (u2 & B2 & H2).
    apply back_inv in B1 as (sa & p1 & Sa & P1 & L1 & ->).
    apply back_inv in B2 as (sb & p2 & Sb & P2 & L2 & ->).
    assert (sb = sa) as -> by congruence.
    assert (p2 = p1) as ->.
    { unfold mget_int in P1, P2. case_decide; [| done].
      rewrite Hptr in P1 by lia. congruence. }
    destruct (decide (i = (S m + 1)%nat)) as [-> |].
    + apply back_loop_keeps in H1 as (_ & _ & _ & _ & _ & K1).
      apply back_loop_keeps in H2 as (_ & _ & _ & _ & _ & K2).
      rewrite K1, K2 by lia. cbn [path].
      rewrite !list_lookup_insert_ne by lia. congruence.
    + eapply IH; [| | exact H1 | exact H2 | lia].
      * exact Hptr.
      * cbn [path]. rewrite Nat.add_1_r.
        by rewrite !list_lookup_insert_eq by lia.
Qed.

Lemma traceback_same vargmax n t1 t2 r1 r2 :
  (2 <= n)%nat -> length (path t1) = n -> length (path t2) = n ->
  (forall j i, (1 <= i)%nat -> mget (ptr t1) j i = mget (ptr t2) j i) ->
  (forall j, mget (pi t1) j (n - 1) = mget (pi t2) j (n - 1)) ->
  traceback vargmax n t1 = Some r1 -> traceback vargmax n t2 = Some r2 ->
  forall i, (1 <= i < n)%nat -> path r1 !! i = path r2 !! i.
Proof.
  intros Hn L1 L2 Hptr Hpi H1 H2 i Hi. unfold traceback in H1, H2.
  apply bind_Some in H1 as (p0 & A0 & H1). apply bind_Some in H1 as (p1 & A1 & H1).
  apply bind_Some in H1 as (pth1 & S1 & H1). apply lset_inv in S1 as [_ ->].
  apply bind_Some in H2 as (q0 & B0 & H2). apply bind_Some in H2 as (q1 & B1 & H2).
  apply bind_Some in H2 as (pth2 & S2 & H2). apply lset_inv in S2 as [_ ->].
  assert (q0 = p0) as -> by (rewrite Hpi in A0; congruence).
  assert (q1 = p1) as -> by (rewrite Hpi in A1; congruence).
  eapply (back_loop_same (n - 2)); [| | exact H1 | exact H2 | lia].
  - done.
  - simpl. replace (n - 2 + 1)%nat with (n - 1)%nat by lia.
    by rewrite !list_lookup_insert_eq by lia.
Qed.

(** ** Comparisons of [double] *)

Lemma SFcompare_swap x y :
  SFcompare y x = CompOpp <$> SFcompare x y.
Proof.
  destruct x as [sx | sx | | sx mx ex], y as [sy | sy | | sy my ey];
    simpl; try done; try (by destruct sx); try (by destruct sy);
    try (by destruct sx, sy).
  destruct sx, sy; simpl; try done;
    rewrite (Z.compare_antisym ex ey); destruct (ex ?= ey)%Z; simpl; try done;
    by rewrite (Pos.compare_cont_antisym mx my Eq).
Qed.

Lemma ltb_asym (x y : float) :
  (x <? y)%float = true -> (y <? x)%float = false.
Proof.
  rewrite !FloatAxioms.ltb_spec. unfold SFltb. rewrite (SFcompare_swap (Prim2SF x) (Prim2SF y)).
  by destruct (SFcompare (Prim2SF x) (Prim2SF y)) as [[] |].
Qed.

(** Scores that compare equal with [==]: neither is less than the other. *)
Lemma eqb_not_ltb (x y : float) :
  (x =? y)%float = true -> (x <? y)%float = false /\ (y <? x)%float = false.
Proof.
  rewrite FloatAxioms.eqb_spec, !FloatAxioms.ltb_spec. unfold SFeqb, SFltb.
  rewrite (SFcompare_swap (Prim2SF x) (Prim2SF y)). by destruct (SFcompare (Prim2SF x) (Prim2SF y)) as [[] |].
Qed.

(** ** The helpers of the two variants *)

Lemma max_same (x y : float) : Poisson.max x y = Durbin.max x y.
Proof. unfold Poisson.max, Durbin.max. by destruct (y <? x)%float, (x <? y)%float. Qed.

(** [max] returns one of its arguments, and neither argument is greater
    than what it returns. *)
Lemma max_upper (x y : float) :
  (Durbin.max x y = x \/ Durbin.max x y = y) /\
  (Durbin.max x y <? x)%float = false /\ (Durbin.max x y <? y)%float = false.
Proof.
  unfold Durbin.max. destruct (y <? x)%float eqn:E.
  - split; [by left |]. split; [| by apply ltb_asym].
    destruct (x <? x)%float eqn:E'; [| done].
    pose proof (ltb_asym _ _ E'). congruence.
  - split; [by right |]. split; [done |].
    destruct (y <? y)%float eqn:E'; [| done].
    pose proof (ltb_asym _ _ E'). congruence.
Qed.

Lemma durbin_argmax_bit (x y : float) : bit (Durbin.argmax x y).
Proof. unfold Durbin.argmax, bit. destruct (y <? x)%float; auto. Qed.

(** On a tie [viterbi_durbin.c] answers 1. *)
Lemma durbin_argmax_tie (x y : float) :
  (x =? y)%float = true -> Durbin.argmax x y = 1%Z.
Proof.
  intros H. apply eqb_not_ltb in H as [_ H]. unfold Durbin.argmax. by rewrite H.
Qed.

(** On a tie the two [viterbi.c] answer the integral part of the score. *)
Lemma poisson_argmax_tie (x y : float) :
  (x =? y)%float = true -> Poisson.argmax x y = C.int_of_double y.
Proof.
  intros H. apply eqb_not_ltb in H as [H1 H2]. unfold Poisson.argmax.
  by rewrite H1, H2.
Qed.

(** Away from ties and NaN the two [argmax] agree. *)
Lemma argmax_same (x y : float) :
  (x <? y)%float = true \/ (y <? x)%float = true ->
  Poisson.argmax x y = Durbin.argmax x y.
Proof.
  unfold Poisson.argmax, Durbin.argmax. intros [H | H].
  - rewrite H. by rewrite (ltb_asym _ _ H).
  - by rewrite H.
Qed.

(** ** The two variants *)

Section Variants.

Context {M : libm}.

Lemma poisson_a_shape : shape 2 2 Poisson.a.
Proof.
  split; [done |]. intros [| [| j]] row Hrow; simpl in Hrow; [| | done];
    by injection Hrow as <-.
Qed.

Lemma durbin_a_shape : shape 2 2 Durbin.a.
Proof.
  split; [done |]. intros [| [| j]] row Hrow; simpl in Hrow; [| | done];
    by injection Hrow as <-.
Qed.

Lemma poisson_emission_Some seq i j :
  (1 <= i <= length seq)%nat -> (j < 2)%nat ->
  exists k lambda, seq !! (i - 1)%nat = Some k /\ Poisson.e !! j = Some lambda /\
    Poisson.emission seq i j =
      Some (log (Poisson.poisson (C.double_of_int k) lambda)).
Proof.
  intros Hi Hj. unfold Poisson.emission.
  destruct (lookup_lt_is_Some_2 seq (i - 1)) as [k Hk]; [lia |].
  destruct (lookup_lt_is_Some_2 Poisson.e j) as [lambda Hl]; [simpl; lia |].
  exists k, lambda. by rewrite Hk, Hl.
Qed.

Lemma durbin_e_shape : shape 6 2 Durbin.e.
Proof.
  split; [done |]. intros r row Hrow.
  do 6 (destruct r as [| r]; [simpl in Hrow; by inversion Hrow |]).
  done.
Qed.

Lemma durbin_e_Some s j :
  Durbin.in_table s -> (j < 2)%nat -> is_Some (mget_int Durbin.e s j).
Proof.
  unfold Durbin.in_table. intros Hs Hj. unfold mget_int.
  rewrite decide_True by lia.
  apply (mget_is_Some 6 2); [apply durbin_e_shape | lia | done].
Qed.

Lemma durbin_e_inv s j :
  is_Some (mget_int Durbin.e s j) -> Durbin.in_table s /\ (j < 2)%nat.
Proof.
  unfold mget_int, mget. intros [em H]. case_decide as Hs; [| done].
  apply bind_Some in H as (row & Hrow & Hcell).
  pose proof (lookup_lt_Some _ _ _ Hrow) as Hlt. simpl in Hlt.
  split; [unfold Durbin.in_table; lia |].
  apply lookup_lt_Some in Hcell.
  destruct durbin_e_shape as [_ Hc]. by rewrite (Hc _ _ Hrow) in Hcell.
Qed.

Lemma tail_lookup {A} (P : A -> Prop) (l : list A) :
  Forall P (tail l) <-> forall i x, (1 <= i)%nat -> l !! i = Some x -> P x.
Proof.
  rewrite Forall_lookup. destruct l as [| x0 l]; simpl.
  - split; intros H i x; [intros _ |]; by rewrite ?lookup_nil.
  - split; intros H i x.
    + intros Hi Hx. destruct i as [| i]; [lia |]. eauto.
    + intros Hx. apply (H (S i)); [lia | done].
Qed.

Lemma durbin_emission_Some seq i j :
  Forall Durbin.in_table (tail seq) -> (1 <= i < length seq)%nat -> (j < 2)%nat ->
  is_Some (Durbin.emission seq i j).
Proof.
  intros Hseq Hi Hj. unfold Durbin.emission.
  destruct (lookup_lt_is_Some_2 seq i) as [s Hs]; [lia |].
  rewrite Hs. simpl. apply durbin_e_Some; [| done].
  rewrite tail_lookup in Hseq. apply (Hseq i); [lia | done].
Qed.

Lemma durbin_emission_inv seq i j em :
  Durbin.emission seq i j = Some em ->
  exists s, seq !! i = Some s /\ Durbin.in_table s /\ (j < 2)%nat /\
    mget_int Durbin.e s j = Some em.
Proof.
  unfold Durbin.emission. intros H. apply bind_Some in H as (s & Hs & H).
  exists s. split; [done |]. destruct (durbin_e_inv s j); [eauto |]. done.
Qed.

(** The recursion of the Poisson variants runs on every sequence. *)
Lemma poisson_during_run seq m :
  (1 <= m <= length seq)%nat ->
  exists t0 t, init (alloc zeroed (length seq)) = Some t0 /\
    Poisson.during seq m = Some t /\ dims (length seq) t /\
    path t = h_path zeroed <$> List.seq 0 (length seq) /\
    written t = [(0, 0); (1, 0)]%nat ++ cells (m - 1) /\
    mget (vprob t) 0 0 = Some 1%float /\ mget (vprob t) 1 0 = Some 0%float /\
    agree (fun _ i' => ~ (1 <= i' < m)%nat) t0 t /\
    forall i j, (1 <= i < m)%nat -> (j < 2)%nat ->
      filled Poisson.max Poisson.argmax Poisson.a (Poisson.emission seq) t i j.
Proof.
  intros Hm. apply reached_run; [apply poisson_a_shape | done |].
  intros i j Hi Hj.
  destruct (poisson_emission_Some seq i j) as (k & l & _ & _ & ->); [lia | done |].
  eauto.
Qed.

(** The recursion of the Durbin variant runs when the symbols it looks up
    are rows of the emission table. *)
Lemma durbin_during_run h seq m :
  (1 <= m <= length seq)%nat -> Forall Durbin.in_table (tail seq) ->
  exists t0 t, init (alloc h (length seq)) = Some t0 /\
    Durbin.during h seq m = Some t /\ dims (length seq) t /\
    path t = h_path h <$> List.seq 0 (length seq) /\
    written t = [(0, 0); (1, 0)]%nat ++ cells (m - 1) /\
    mget (vprob t) 0 0 = Some 1%float /\ mget (vprob t) 1 0 = Some 0%float /\
    agree (fun _ i' => ~ (1 <= i' < m)%nat) t0 t /\
    forall i j, (1 <= i < m)%nat -> (j < 2)%nat ->
      filled Durbin.max Durbin.argmax Durbin.a (Durbin.emission seq) t i j.
Proof.
  intros Hm Hseq. apply reached_run; [apply durbin_a_shape | done |].
  intros i j Hi Hj. apply durbin_emission_Some; [done | lia | done].
Qed.

(** With valid symbols the Durbin variant decodes: the traceback finds a
    state index in every backpointer it follows. *)
Lemma durbin_run h seq :
  (1 <= length seq)%nat -> Forall Durbin.in_table (tail seq) ->
  exists t t', Durbin.scores h seq = Some t /\
    Durbin.run_viterbi h seq = Some t' /\
    traceback Durbin.argmax (length seq) t = Some t' /\
    forall i, (1 <= i < length seq)%nat -> exists s, path t' !! i = Some s /\ bit s.
Proof.
  intros Hn Hseq.
  destruct (durbin_during_run h seq (length seq))
    as (t0 & t & _ & E & D & _ & _ & _ & _ & _ & F); [lia | done |].
  destruct (traceback_run Durbin.argmax (length seq) t) as (t' & E' & Hbits);
    [done | done | apply durbin_argmax_bit | |].
  { intros i j Hi Hj.
    destruct (F i j Hi Hj) as (v0 & v1 & a0 & a1 & em & _ & _ & _ & _ & _ & _ & HP & _).
    eexists. split; [apply durbin_argmax_bit | exact HP]. }
  exists t, t'. split; [exact E |]. split; [| done].
  unfold Durbin.run_viterbi, decode.
  change (fill Durbin.max Durbin.argmax Durbin.a (Durbin.emission seq) h (length seq))
    with (Durbin.during h seq (length seq)).
  by rewrite E.
Qed.

End Variants.

Section VariantRuns.

Context {M : libm}.

(** A recursion of the Durbin variant that ran looked up rows of the
    emission table only. *)
Lemma durbin_during_inv h seq m t :
  Durbin.during h seq m = Some t ->
  forall i s, (1 <= i < m)%nat -> seq !! i = Some s -> Durbin.in_table s.
Proof.
  intros Hrun i s Hi Hs.
  destruct (reached_needs_emission _ _ _ _ _ _ _ _ i 0 Hrun) as [em Hem];
    [lia | lia | lia |].
  apply durbin_emission_inv in Hem as (s' & Hs' & Hin & _). congruence.
Qed.

Lemma durbin_scores_inv h seq t :
  Durbin.scores h seq = Some t -> Forall Durbin.in_table (tail seq).
Proof.
  intros Hrun. apply tail_lookup. intros i s Hi Hs.
  apply (durbin_during_inv h seq (length seq) t Hrun i); [| done].
  apply lookup_lt_Some in Hs. lia.
Qed.

Lemma poisson_viterbi_inv seq t' :
  Poisson.viterbi seq = Some t' ->
  exists t, Poisson.scores seq = Some t /\
    traceback Poisson.argmax (length seq) t = Some t'.
Proof. unfold Poisson.viterbi, decode. intros H. by apply bind_Some in H. Qed.

Lemma durbin_run_viterbi_inv h seq t' :
  Durbin.run_viterbi h seq = Some t' ->
  exists t, Durbin.scores h seq = Some t /\
    traceback Durbin.argmax (length seq) t = Some t'.
Proof. unfold Durbin.run_viterbi, decode. intros H. by apply bind_Some in H. Qed.

End VariantRuns.

(** * The claims *)

(** ** The recurrence of the score table *)

(** The recurrence at cell [(j, i)] of the score table, with the emission
    term of the Poisson variants: the observation is [seq[i - 1]]. *)
Definition poisson_recurrence `{M : libm} (seq : list Z) (t : tables)
    (i j : nat) : Prop :=
  exists k lambda v0 v1 a0 a1,
    seq !! (i - 1)%nat = Some k /\ Poisson.e !! j = Some lambda /\
    mget (vprob t) 0 (i - 1) = Some v0 /\ mget (vprob t) 1 (i - 1) = Some v1 /\
    mget Poisson.a 0 j = Some a0 /\ mget Poisson.a 1 j = Some a1 /\
    mget (vprob t) j i =
      Some (log (Poisson.poisson (C.double_of_int k) lambda) +
            Poisson.max (v0 + a0) (v1 + a1))%float.

(** The same with the emission term of the Durbin variant: the observation
    is [seq[i]]. *)
Definition durbin_recurrence `{M : libm} (seq : list Z) (t : tables)
    (i j : nat) : Prop :=
  exists s em v0 v1 a0 a1,
    seq !! i = Some s /\ mget_int Durbin.e s j = Some em /\
    mget (vprob t) 0 (i - 1) = Some v0 /\ mget (vprob t) 1 (i - 1) = Some v1 /\
    mget Durbin.a 0 j = Some a0 /\ mget Durbin.a 1 j = Some a1 /\
    mget (vprob t) j i = Some (em + Durbin.max (v0 + a0) (v1 + a1))%float.

(** What the recursion leaves in the score table, in terms of the programs'
    own [poisson] and [max]: for a sequence of length n >= 2, a column i with
    1 <= i <= n - 1 and a state j, [vprob[j][i]] holds the emission term as
    the program computes it plus
    [max(vprob[0][i-1] + a[0][j], vprob[1][i-1] + a[1][j])]; the emission
    term is that of [seq[i - 1]] in the Poisson variants and that of
    [seq[i]] in the Durbin variant (whose symbols from position 1 on must be
    rows of its table).  The traceback leaves the score table as it is. *)
Lemma score_recurrence_as_coded `{M : libm} (h : heap) (seq : list Z) (i j : nat) :
  (2 <= length seq)%nat -> (1 <= i <= length seq - 1)%nat -> (j < 2)%nat ->
  (exists t, Poisson.scores seq = Some t /\ poisson_recurrence seq t i j /\
     forall t', Poisson.viterbi seq = Some t' -> vprob t' = vprob t) /\
  (Forall Durbin.in_table (tail seq) ->
   exists t t', Durbin.scores h seq = Some t /\ durbin_recurrence seq t i j /\
     Durbin.run_viterbi h seq = Some t' /\ vprob t' = vprob t).
Proof.
  intros Hn Hi Hj. split.
  - destruct (poisson_during_run seq (length seq))
      as (t0 & t & _ & E & D & _ & _ & _ & _ & _ & F); [lia |].
    exists t. split; [exact E |]. split.
    + destruct (F i j) as (v0 & v1 & a0 & a1 & em & H0 & H1 & Ha0 & Ha1 & Hem & HV & _);
        [lia | done |].
      destruct (poisson_emission_Some seq i j) as (k & l & Hk & Hl & Hem');
        [lia | done |].
      exists k, l, v0, v1, a0, a1. repeat (split; [done |]).
      rewrite HV. congruence.
    + intros t' Hrun. apply poisson_viterbi_inv in Hrun as (t1 & E1 & Htb).
      assert (t1 = t) as -> by (unfold Poisson.scores, fill in E1; unfold Poisson.during in E; congruence).
      apply traceback_inv in Htb as (_ & _ & _ & _ & _ & HV & _); [done | lia |].
      by destruct D as (_ & _ & _ & ?).
  - intros Hseq.
    destruct (durbin_during_run h seq (length seq))
      as (t0 & t & _ & E & D & _ & _ & _ & _ & _ & F); [lia | done |].
    destruct (durbin_run h seq) as (t1 & t' & E1 & Erun & Htb & _); [lia | done |].
    assert (t1 = t) as -> by (unfold Durbin.scores, fill in E1; unfold Durbin.during in E; congruence).
    exists t, t'. split; [exact E1 |]. split; [| split; [exact Erun |]].
    + destruct (F i j) as (v0 & v1 & a0 & a1 & em & H0 & H1 & Ha0 & Ha1 & Hem & HV & _);
        [lia | done |].
      apply durbin_emission_inv in Hem as (s & Hs & _ & _ & Hem).
      by exists s, em, v0, v1, a0, a1.
    + apply traceback_inv in Htb as (_ & _ & _ & _ & _ & HV & _); [done | lia |].
      by destruct D as (_ & _ & _ & ?).
Qed.

(** ** The last state of the path *)






(** ** A sequence of one observation *)

(** The traceback of a sequence of length 1 reads [pi[0][0]] and [pi[1][0]],
    which no statement assigns.  [calloc] has zeroed them in the Poisson
    variants, whose [argmax] turns the tie into the integral part of 0.0. *)
Lemma poisson_single `{M : libm} (k : Z) :
  path <$> Poisson.viterbi [k] = Some [0%Z] /\ Poisson.main [k] = Some [1%Z].
Proof. split; vm_compute; reflexivity. Qed.

(** In the Durbin variant they hold what [malloc] returned. *)
Lemma durbin_single `{M : libm} (h : heap) (s : Z) :
  path <$> Durbin.run_viterbi h [s] =
    Some [Durbin.argmax (h_pi h 0 0) (h_pi h 1 0)].
Proof. reflexivity. Qed.

(** C3, at an input where the Durbin variant breaks it: a sequence file
    that holds the single roll 3, decoded in zero-filled storage, gives the
    path [1], printed as [L]; state 0 is decoded only from storage in which
    [pi[0][0] > pi[1][0]] happens to hold. *)
Theorem C3_single_observation :
  path <$> Durbin.main (M := Rounded.points) zeroed [3]%Z = Some [1%Z] /\
  Durbin.show [1%Z] = ("L" ++ Durbin.newline)%string /\
  path <$> Durbin.main (M := Rounded.points) stale [3]%Z = Some [0%Z].
Proof. split; [| split]; vm_compute; reflexivity. Qed.

(** ** Ties *)

(** C4, at an input where the two Poisson programs break it: on the tie
    -3.5 = -3.5 their [argmax] returns -3, the integral part of the score;
    the [argmax] of the Durbin variant returns 1. *)
Theorem C4_argmax_tie :
  (-3.5 =? -3.5)%float = true /\
  Poisson.argmax (-3.5) (-3.5) = (-3)%Z /\
  Durbin.argmax (-3.5) (-3.5) = 1%Z.
Proof. split; [| split]; vm_compute; reflexivity. Qed.

(** ** The first column and the writes *)

(** C5 as the claim states it fails: the programs store 1 in [vprob[0][0]],
    not 0. *)
Lemma C5_first_column_counterexample :
  exists t, Poisson.scores (M := Rounded.points) [0; 5]%Z = Some t /\
    mget (vprob t) 0 0 = Some 1%float /\ mget (vprob t) 0 0 <> Some 0%float.
Proof.
  eexists. split; [vm_compute; reflexivity |]. split; [reflexivity |].
  intros H.
  apply (f_equal (fun o => match o with Some x => (x =? 0)%float | None => true end)) in H.
  vm_compute in H. discriminate.
Qed.

(** C5, amended.  Whenever the outer loop of the recursion tests its
    condition ([i = m], 1 <= m <= n), and when the traceback is over,
    [vprob[0][0]] holds 1 and [vprob[1][0]] holds 0 (the probabilities 1 and
    0 of the start states, stored as they are), and no cell of [vprob] has
    been assigned more than once. *)
Theorem C5_first_column `{M : libm} (h : heap) (seq : list Z) (m : nat) :
  (1 <= m <= length seq)%nat ->
  (exists t, Poisson.during seq m = Some t /\
     mget (vprob t) 0 0 = Some 1%float /\ mget (vprob t) 1 0 = Some 0%float /\
     NoDup (written t)) /\
  (Forall Durbin.in_table (tail seq) ->
   exists t, Durbin.during h seq m = Some t /\
     mget (vprob t) 0 0 = Some 1%float /\ mget (vprob t) 1 0 = Some 0%float /\
     NoDup (written t)) /\
  (forall t', Poisson.viterbi seq = Some t' \/ Durbin.run_viterbi h seq = Some t' ->
     mget (vprob t') 0 0 = Some 1%float /\ mget (vprob t') 1 0 = Some 0%float /\
     NoDup (written t')).
Proof.
  intros Hm. split; [| split].
  - destruct (poisson_during_run seq m)
      as (t0 & t & _ & E & _ & _ & W & V0 & V1 & _); [done |].
    exists t. rewrite W. auto using NoDup_written.
  - intros Hseq.
    destruct (durbin_during_run h seq m)
      as (t0 & t & _ & E & _ & _ & W & V0 & V1 & _); [done | done |].
    exists t. rewrite W. auto using NoDup_written.
  - intros t' [Hrun | Hrun].
    + apply poisson_viterbi_inv in Hrun as (t1 & E1 & Htb).
      destruct (poisson_during_run seq (length seq))
        as (t0 & t & _ & E & D & _ & W & V0 & V1 & _); [lia |].
      assert (t1 = t) as -> by (unfold Poisson.scores, fill in E1; unfold Poisson.during in E; congruence).
      apply traceback_inv in Htb as (_ & _ & _ & _ & _ & -> & _ & _ & -> & _);
        [| lia | by destruct D as (_ & _ & _ & ?)].
      rewrite W. auto using NoDup_written.
    + apply durbin_run_viterbi_inv in Hrun as (t1 & E1 & Htb).
      destruct (durbin_during_run h seq (length seq))
        as (t0 & t & _ & E & D & _ & W & V0 & V1 & _);
        [lia | by eapply durbin_scores_inv |].
      assert (t1 = t) as -> by (unfold Durbin.scores, fill in E1; unfold Durbin.during in E; congruence).
      apply traceback_inv in Htb as (_ & _ & _ & _ & _ & -> & _ & _ & -> & _);
        [| lia | by destruct D as (_ & _ & _ & ?)].
      rewrite W. auto using NoDup_written.
Qed.

Lemma C5_first_column_witness :
  (exists t, Poisson.during (M := Rounded.points) [0; 5; 5]%Z 2 = Some t /\
     mget (vprob t) 0 0 = Some 1%float /\ mget (vprob t) 1 0 = Some 0%float /\
     NoDup (written t)) /\
  (exists t, Durbin.during (M := Rounded.points) zeroed [0; 5; 5]%Z 2 = Some t /\
     mget (vprob t) 0 0 = Some 1%float /\ mget (vprob t) 1 0 = Some 0%float /\
     NoDup (written t)).
Proof.
  destruct (@C5_first_column Rounded.points zeroed [0; 5; 5]%Z 2) as (HP & HD & _);
    [simpl; lia |].
  split; [exact HP | apply HD].
  simpl. repeat constructor; unfold Durbin.in_table; lia.
Defined.

(** ** Backpointers *)

(** In the recursion of the Durbin variant every backpointer is a state. *)
Lemma durbin_ptr_bit `{M : libm} (h : heap) (seq : list Z) (i j : nat) :
  (1 <= i < length seq)%nat -> (j < 2)%nat ->
  Forall Durbin.in_table (tail seq) ->
  exists t b, Durbin.scores h seq = Some t /\
    mget (ptr t) j i = Some (C.double_of_int b) /\ bit b.
Proof.
  intros Hi Hj Hseq.
  destruct (durbin_during_run h seq (length seq))
    as (t0 & t & _ & E & _ & _ & _ & _ & _ & _ & F); [lia | done |].
  destruct (F i j) as (v0 & v1 & a0 & a1 & em & _ & _ & _ & _ & _ & _ & HP & _);
    [lia | done |].
  exists t. eexists. split; [exact E |]. split; [exact HP |].
  apply durbin_argmax_bit.
Qed.

(** In the recursion of the Poisson variants a backpointer is a state when
    the two predecessor scores are ordered, and the integral part of the
    score when they tie. *)
Lemma poisson_ptr `{M : libm} (seq : list Z) (i j : nat) :
  (1 <= i < length seq)%nat -> (j < 2)%nat ->
  exists t v0 v1 a0 a1 p, Poisson.scores seq = Some t /\
    mget (vprob t) 0 (i - 1) = Some v0 /\ mget (vprob t) 1 (i - 1) = Some v1 /\
    mget Poisson.a 0 j = Some a0 /\ mget Poisson.a 1 j = Some a1 /\
    mget (ptr t) j i = Some p /\
    ((v1 + a1 <? v0 + a0)%float = true -> p = 0%float) /\
    ((v0 + a0 <? v1 + a1)%float = true -> p = 1%float) /\
    ((v0 + a0 =? v1 + a1)%float = true ->
       p = C.double_of_int (C.int_of_double (v1 + a1)%float)).
Proof.
  intros Hi Hj.
  destruct (poisson_during_run seq (length seq))
    as (t0 & t & _ & E & _ & _ & _ & _ & _ & _ & F); [lia |].
  destruct (F i j) as (v0 & v1 & a0 & a1 & em & H0 & H1 & Ha0 & Ha1 & _ & _ & HP & _);
    [lia | done |].
  exists t, v0, v1, a0, a1. eexists. split; [exact E |].
  do 4 (split; [done |]). split; [exact HP |]. split; [| split].
  - intros H. unfold Poisson.argmax. by rewrite H.
  - intros H. unfold Poisson.argmax. by rewrite (ltb_asym _ _ H), H.
  - intros H. by rewrite poisson_argmax_tie.
Qed.

(** C6, at an input where the two Poisson programs break it: the counts
    34, 0, 0.  [poisson] divides by its [factk], which is 0 for the count 34;
    every score of column 1 is +infinity, so that the predecessor scores of
    column 2 tie, and the backpointers of column 2 hold what the conversion
    of +infinity to [int] gives.  The traceback then indexes [ptr] with it. *)
Theorem C6_backpointer_not_a_state :
  exists t v0 v1 a0 a1,
    Poisson.scores (M := Rounded.points) [34; 0; 0]%Z = Some t /\
    mget (vprob t) 0 1 = Some v0 /\ mget (vprob t) 1 1 = Some v1 /\
    mget (Poisson.a (M := Rounded.points)) 0 0 = Some a0 /\
    mget (Poisson.a (M := Rounded.points)) 1 0 = Some a1 /\
    (v0 + a0 =? v1 + a1)%float = true /\
    mget (ptr t) 0 2 = Some (-2147483648)%float /\
    mget (ptr t) 1 2 = Some (-2147483648)%float /\
    Poisson.viterbi (M := Rounded.points) [34; 0; 0]%Z = None.
Proof.
  eexists _, _, _, _, _. split; [vm_compute; reflexivity |].
  do 4 (split; [reflexivity |]). repeat split; vm_compute; reflexivity.
Qed.

(** ** What the output depends on *)

(** What the Durbin variant decodes from position 1 on is the same whatever
    [malloc] returned; position 0 of the path is what [malloc] returned. *)
Lemma durbin_path_determined `{M : libm} (h1 h2 : heap) (seq : list Z) t1 t2 :
  (2 <= length seq)%nat ->
  Durbin.run_viterbi h1 seq = Some t1 -> Durbin.run_viterbi h2 seq = Some t2 ->
  path t1 !! 0%nat = Some (h_path h1 0) /\
  forall i, (1 <= i < length seq)%nat -> path t1 !! i = path t2 !! i.
Proof.
  intros Hn R1 R2.
  apply durbin_run_viterbi_inv in R1 as (u1 & E1 & T1).
  apply durbin_run_viterbi_inv in R2 as (u2 & E2 & T2).
  pose proof (durbin_scores_inv _ _ _ E1) as Hseq.
  destruct (durbin_during_run h1 seq (length seq))
    as (? & u1' & _ & E1' & D1 & P1 & _ & V10 & V11 & _ & F1); [lia | done |].
  destruct (durbin_during_run h2 seq (length seq))
    as (? & u2' & _ & E2' & D2 & P2 & _ & V20 & V21 & _ & F2); [lia | done |].
  assert (u1' = u1) as -> by (unfold Durbin.scores, fill in E1; unfold Durbin.during in E1'; congruence).
  assert (u2' = u2) as -> by (unfold Durbin.scores, fill in E2; unfold Durbin.during in E2'; congruence).
  destruct D1 as (_ & SP1 & SPi1 & L1). destruct D2 as (_ & SP2 & SPi2 & L2).
  assert (Hsame : forall i j, (1 <= i < length seq)%nat -> (j < 2)%nat ->
            mget (vprob u1) j i = mget (vprob u2) j i /\
            mget (ptr u1) j i = mget (ptr u2) j i /\
            mget (pi u1) j i = mget (pi u2) j i).
  { eapply filled_same; [| exact F1 | exact F2].
    intros [| [| j]] Hj; [congruence | congruence | lia]. }
  split.
  - apply traceback_inv in T1 as (_ & _ & _ & _ & _ & _ & _ & _ & _ & _ & H0);
      [| lia | done].
    rewrite H0 by done. rewrite P1.
    rewrite list_lookup_fmap, lookup_seq_lt by lia. done.
  - eapply traceback_same; [exact Hn | exact L1 | exact L2 | | | exact T1 | exact T2].
    + intros j i Hi.
      destruct (decide (j < 2 /\ i < length seq)%nat) as [[Hj Hi'] |].
      * by apply Hsame.
      * rewrite !(mget_outside 2 (length seq)); [done | done | lia | done | lia].
    + intros j. destruct (decide (j < 2)%nat) as [Hj |].
      * by apply Hsame; [lia |].
      * rewrite !(mget_outside 2 (length seq)); [done | done | lia | done | lia].
Qed.

(** C7, at an input where the Durbin variant breaks it: the rolls 1, 6
    decoded twice, in zero-filled storage and in storage that was used
    before.  No statement assigns [path[0]]; it is printed as the storage
    held it, [F] in one run and nothing in the other. *)
Theorem C7_output_depends_on_heap :
  path <$> Durbin.main (M := Rounded.points) zeroed [1; 6]%Z = Some [0; 0]%Z /\
  path <$> Durbin.main (M := Rounded.points) stale [1; 6]%Z = Some [7; 0]%Z /\
  Durbin.show [0; 0]%Z = ("FF" ++ Durbin.newline)%string /\
  Durbin.show [7; 0]%Z = ("F" ++ Durbin.newline)%string.
Proof. repeat split; vm_compute; reflexivity. Qed.

(** ** The Poisson probability *)

(** k! *)
Fixpoint factorial (k : nat) : Z :=
  match k with
  | O => 1%Z
  | S k' => (Z.of_nat k * factorial k')%Z
  end.

(** Up to the count 12 [factk] is the factorial. *)
Lemma factk_small (k : Z) :
  (0 <= k <= 12)%Z ->
  Poisson.factk (C.double_of_int k) = factorial (Z.to_nat k).
Proof.
  intros Hk.
  assert (H : k ∈ [0; 1; 2; 3; 4; 5; 6; 7; 8; 9; 10; 11; 12]%Z).
  { rewrite !elem_of_cons. lia. }
  repeat (apply elem_of_cons in H as [-> | H]; [vm_compute; reflexivity |]).
  by apply elem_of_nil in H.
Qed.

(** Up to the count 12 [poisson] evaluates the formula of the Poisson
    probability in [double] arithmetic; for the count 0 it divides by 1. *)
Lemma poisson_small `{M : libm} (k : Z) (lambda : float) :
  (0 <= k <= 12)%Z ->
  Poisson.poisson (C.double_of_int k) lambda =
    ((pow lambda (C.double_of_int k) * exp (- lambda)) /
     C.double_of_int (factorial (Z.to_nat k)))%float.
Proof. intros Hk. unfold Poisson.poisson. by rewrite factk_small. Qed.

Lemma poisson_zero `{M : libm} (lambda : float) :
  Poisson.poisson 0 lambda = ((pow lambda 0 * exp (- lambda)) / 1)%float.
Proof. reflexivity. Qed.

(** C8, at an input where the two Poisson programs break it: the count 13.
    [factk] is an [int]; the product 13! = 6227020800 does not fit and
    [factk] ends as 1932053504, so that [poisson] returns more than three
    times the probability. *)
Theorem C8_factorial_overflow :
  Poisson.factk 13 = 1932053504%Z /\
  factorial 13 = 6227020800%Z /\
  Poisson.poisson (M := Rounded.points) 13 1.8234 =
    ((pow (libm := Rounded.points) 1.8234 13 *
      exp (libm := Rounded.points) (- 1.8234)) / 1932053504)%float /\
  Poisson.poisson (M := Rounded.points) 13 1.8234 = 0x1.ba0ff53f1cdd2p-23%float.
Proof. repeat split; vm_compute; reflexivity. Qed.

(** ** The recurrence with the Poisson probability *)

(** The Poisson probability of the count [k] at the rate [lambda] as the
    specification writes it, [lambda^k e^(-lambda) / k!], evaluated in
    [double] arithmetic with the factorial taken in the integers (k! is a
    [double] without rounding up to k = 18). *)
Definition poisson_pmf `{M : libm} (k : Z) (lambda : float) : float :=
  ((pow lambda (C.double_of_int k) * exp (- lambda)) /
   C.double_of_int (factorial (Z.to_nat k)))%float.

(** The greater of two scores. *)
Definition greater (x y : float) : float :=
  if (x <? y)%float then y else x.

(** For counts up to 12 the Poisson programs leave in [vprob[j][i]] the
    logarithm of the Poisson probability of [seq[i - 1]] plus the larger
    predecessor score. *)
Lemma recurrence_small_counts `{M : libm} (seq : list Z) (i j : nat) (k : Z) :
  (2 <= length seq)%nat -> (1 <= i <= length seq - 1)%nat -> (j < 2)%nat ->
  seq !! (i - 1)%nat = Some k -> (0 <= k <= 12)%Z ->
  exists t lambda v0 v1 a0 a1,
    Poisson.scores seq = Some t /\ Poisson.e !! j = Some lambda /\
    mget (vprob t) 0 (i - 1) = Some v0 /\ mget (vprob t) 1 (i - 1) = Some v1 /\
    mget Poisson.a 0 j = Some a0 /\ mget Poisson.a 1 j = Some a1 /\
    mget (vprob t) j i =
      Some (log (poisson_pmf k lambda) + Poisson.max (v0 + a0) (v1 + a1))%float.
Proof.
  intros Hn Hi Hj Hk Hk12.
  destruct (score_recurrence_as_coded zeroed seq i j Hn Hi Hj) as [(t & E & R & _) _].
  destruct R as (k' & l & v0 & v1 & a0 & a1 & Hk' & Hl & H0 & H1 & Ha0 & Ha1 & HV).
  assert (k' = k) as -> by congruence.
  exists t, l, v0, v1, a0, a1. rewrite poisson_small in HV by done.
  by repeat split.
Qed.

(** C1, at an input where the two Poisson programs break it: the counts
    13, 0.  In column 1 the programs store the logarithm of what their
    [poisson] returns for the count 13 (see C8: it divides by the wrapped
    [factk]) plus the larger predecessor score, -14.44; the logarithm of the
    Poisson probability plus the larger predecessor score is -15.61. *)
Theorem C1_recurrence_fails_at_count_13 :
  exists t v0 v1 a0 a1 stored expected,
    Poisson.scores (M := Rounded.points) [13; 0]%Z = Some t /\
    mget (vprob t) 0 0 = Some v0 /\ mget (vprob t) 1 0 = Some v1 /\
    mget (Poisson.a (M := Rounded.points)) 0 0 = Some a0 /\
    mget (Poisson.a (M := Rounded.points)) 1 0 = Some a1 /\
    mget (vprob t) 0 1 = Some stored /\
    expected =
      (log (libm := Rounded.points)
         (poisson_pmf (M := Rounded.points) 13 1.8234) +
       greater (v0 + a0) (v1 + a1))%float /\
    stored = (-0x1.ce2547fb9f515p+3)%float /\
    expected = (-0x1.f3987f8f5f809p+3)%float /\
    (stored =? expected)%float = false.
Proof.
  eexists _, _, _, _, _, _, _. split; [vm_compute; reflexivity |].
  do 5 (split; [reflexivity |]). split; [reflexivity |].
  split; [| split]; vm_compute; reflexivity.
Qed.

(** ** Row maxima and backpointers *)

(** C9.  In the Durbin variant, for a column i >= 1 and a state j, the row
    maximum stored in [pi[j][i]] is the predecessor score of the state
    stored in [ptr[j][i]]: with b the state read back from [ptr[j][i]],
    [pi[j][i] = vprob[b][i-1] + a[b][j]]. *)
Theorem C9_pi_matches_ptr `{M : libm} (h : heap) (seq : list Z) (i j : nat) :
  (1 <= i < length seq)%nat -> (j < 2)%nat ->
  Forall Durbin.in_table (tail seq) ->
  exists t p v ab, Durbin.scores h seq = Some t /\
    mget (ptr t) j i = Some p /\ bit (C.int_of_double p) /\
    mget_int (vprob t) (C.int_of_double p) (i - 1) = Some v /\
    mget_int Durbin.a (C.int_of_double p) j = Some ab /\
    mget (pi t) j i = Some (v + ab)%float.
Proof.
  intros Hi Hj Hseq.
  destruct (durbin_during_run h seq (length seq))
    as (t0 & t & _ & E & D & _ & _ & _ & _ & _ & F); [lia | done |].
  destruct (F i j) as (v0 & v1 & a0 & a1 & em & H0 & H1 & Ha0 & Ha1 & _ & _ & HP & HPi);
    [lia | done |].
  unfold Durbin.argmax in HP. unfold Durbin.max in HPi.
  destruct (v1 + a1 <? v0 + a0)%float.
  - exists t, (C.double_of_int 0), v0, a0. split; [exact E |]. split; [exact HP |].
    change (C.int_of_double (C.double_of_int 0)) with 0%Z.
    split; [by left |]. by repeat split.
  - exists t, (C.double_of_int 1), v1, a1. split; [exact E |]. split; [exact HP |].
    change (C.int_of_double (C.double_of_int 1)) with 1%Z.
    split; [by right |]. by repeat split.
Qed.

Lemma C9_pi_matches_ptr_witness :
  exists t p v ab,
    Durbin.scores (M := Rounded.points) zeroed [0; 5]%Z = Some t /\
    mget (ptr t) 1 1 = Some p /\ bit (C.int_of_double p) /\
    mget_int (vprob t) (C.int_of_double p) (1 - 1) = Some v /\
    mget_int (Durbin.a (M := Rounded.points)) (C.int_of_double p) 1 = Some ab /\
    mget (pi t) 1 1 = Some (v + ab)%float.
Proof.
  apply (@C9_pi_matches_ptr Rounded.points zeroed [0; 5]%Z 1 1);
    [simpl; lia | lia |].
  simpl. repeat constructor; unfold Durbin.in_table; lia.
Defined.

(** ** Reading the sequence file *)

Lemma wrap_int_pred (v : Z) :
  C.is_int v -> v <> C.INT_MIN -> C.wrap_int (v - 1) = (v - 1)%Z.
Proof.
  unfold C.is_int, C.wrap_int, C.INT_MIN, C.INT_MAX. intros Hv Hne.
  rewrite Z.mod_small by lia. lia.
Qed.

(** A number of the file is stored as a row of the emission table exactly
    when it is a face of the die. *)
Lemma in_table_stored (v : Z) :
  C.is_int v -> Durbin.in_table (C.wrap_int (v - 1)) <-> (1 <= v <= 6)%Z.
Proof.
  intros Hv. destruct (decide (v = C.INT_MIN)) as [-> |].
  - unfold Durbin.in_table. vm_compute. split; intros [H1 H2]; exfalso; auto.
  - rewrite wrap_int_pred by done. unfold Durbin.in_table. lia.
Qed.

Lemma tail_stored (file : list Z) :
  Forall C.is_int file ->
  Forall Durbin.in_table (tail (Durbin.read_sequencefile file)) <->
  Forall (fun v => (1 <= v <= 6)%Z) (tail file).
Proof.
  intros Hfile. unfold Durbin.read_sequencefile.
  rewrite <- fmap_tail, Forall_fmap.
  assert (Htl : Forall C.is_int (tail file)) by (destruct Hfile; [done | done]).
  induction Htl as [| v l Hv _ IH]; [done |].
  rewrite !Forall_cons. simpl. by rewrite in_table_stored, IH.
Qed.

(** C10 as the claim states it fails: the number at the head of the file is
    stored but never looked up, so that a file whose first number is no face
    of the die is decoded without leaving the emission table. *)
Lemma C10_lookups_in_table_counterexample :
  is_Some (Durbin.scores (M := Rounded.points) zeroed
             (Durbin.read_sequencefile [7; 1]%Z)) /\
  ~ Forall (fun v => (1 <= v <= 6)%Z) [7; 1]%Z.
Proof.
  split.
  - vm_compute. eexists. reflexivity.
  - intros H. apply Forall_cons in H as [H _]. lia.
Qed.

(** C10, amended.  In the Durbin variant every number v of a non-empty
    sequence file is stored as v - 1, and the recursion runs with every
    lookup [e[seq[i]][j]] inside the six rows of the table if and only if
    every number of the file after the first lies in 1..6. *)
Theorem C10_lookups_in_table `{M : libm} (h : heap) (file : list Z) :
  (1 <= length file)%nat -> Forall C.is_int file ->
  (forall i v, file !! i = Some v -> v <> C.INT_MIN ->
     Durbin.read_sequencefile file !! i = Some (v - 1)%Z) /\
  (is_Some (Durbin.scores h (Durbin.read_sequencefile file)) <->
   Forall (fun v => (1 <= v <= 6)%Z) (tail file)).
Proof.
  intros Hn Hfile. split.
  - intros i v Hv Hne. unfold Durbin.read_sequencefile.
    rewrite list_lookup_fmap, Hv. simpl. f_equal.
    apply wrap_int_pred; [| done].
    rewrite Forall_lookup in Hfile. eauto.
  - rewrite <- tail_stored by done. split.
    + intros [t Ht]. by eapply durbin_scores_inv.
    + intros Hseq.
      destruct (durbin_during_run h (Durbin.read_sequencefile file)
                  (length (Durbin.read_sequencefile file)))
        as (t0 & t & _ & E & _); [| done | by exists t].
      unfold Durbin.read_sequencefile. rewrite length_fmap. lia.
Qed.

Lemma C10_lookups_in_table_witness :
  (forall i v, [7; 1; 6]%Z !! i = Some v -> v <> C.INT_MIN ->
     Durbin.read_sequencefile [7; 1; 6]%Z !! i = Some (v - 1)%Z) /\
  (is_Some (Durbin.scores (M := Rounded.points) zeroed
              (Durbin.read_sequencefile [7; 1; 6]%Z)) <->
   Forall (fun v => (1 <= v <= 6)%Z) (tail [7; 1; 6]%Z)).
Proof.
  apply (@C10_lookups_in_table Rounded.points zeroed [7; 1; 6]%Z);
    [simpl; lia |].
  repeat constructor; vm_compute; discriminate.
Defined.

(** * Further properties of the programs *)

(** ** What the decoders read *)

Lemma for_each_ext {S} (f g : nat -> S -> option S) ixs s :
  (forall i s', i ∈ ixs -> f i s' = g i s') ->
  for_each f ixs s = for_each g ixs s.
Proof.
  revert s. induction ixs as [| i ixs IH]; intros s H; simpl; [done |].
  rewrite (H i s) by apply list_elem_of_here.
  destruct (g i s) as [s' |]; simpl; [| done].
  apply IH. intros i' s'' Hin. apply H. by apply list_elem_of_further.
Qed.

Lemma cell_ext vmax vargmax a e1 e2 i j t :
  e1 i j = e2 i j ->
  cell vmax vargmax a e1 i j t = cell vmax vargmax a e2 i j t.
Proof.
  intros H. unfold cell.
  destruct (mget (vprob t) 0 (i - 1)); simpl; [| done].
  destruct (mget a 0 j); simpl; [| done].
  destruct (mget (vprob t) 1 (i - 1)); simpl; [| done].
  destruct (mget a 1 j); simpl; [| done].
  by rewrite H.
Qed.

(** The recursion asks for the emission terms of columns [1 .. m - 1] and
    states 0 and 1, and for no other. *)
Lemma forward_ext vmax vargmax a e1 e2 m t :
  (forall i j, (1 <= i < m)%nat -> (j < 2)%nat -> e1 i j = e2 i j) ->
  forward vmax vargmax a e1 m t = forward vmax vargmax a e2 m t.
Proof.
  intros H. unfold forward. apply for_each_ext. intros i s Hi.
  apply elem_of_seq in Hi. unfold column. apply for_each_ext.
  intros j s' Hj. apply cell_ext, H; [lia |].
  apply elem_of_cons in Hj as [-> | Hj]; [lia |].
  apply elem_of_cons in Hj as [-> | Hj]; [lia |].
  by apply elem_of_nil in Hj.
Qed.

Lemma decode_ext vmax vargmax a e1 e2 h n :
  (forall i j, (1 <= i < n)%nat -> (j < 2)%nat -> e1 i j = e2 i j) ->
  decode vmax vargmax a e1 h n = decode vmax vargmax a e2 h n.
Proof.
  intros H. unfold decode, fill, reached.
  destruct (init (alloc h n)) as [t0 |]; simpl; [| done].
  by rewrite (forward_ext _ _ _ e1 e2).
Qed.

(** X1.  The Durbin program never reads the first observation and the
    Poisson programs never read the last one: replacing it by any other
    number changes nothing in the tables and the path that are decoded. *)
Theorem X1_unread_observation `{M : libm} (h : heap) (seq : list Z) (x y : Z) :
  Durbin.run_viterbi h (x :: seq) = Durbin.run_viterbi h (y :: seq) /\
  Poisson.viterbi (seq ++ [x]) = Poisson.viterbi (seq ++ [y]) /\
  Poisson.main (seq ++ [x]) = Poisson.main (seq ++ [y]).
Proof.
  assert (HP : Poisson.viterbi (seq ++ [x]) = Poisson.viterbi (seq ++ [y])).
  { unfold Poisson.viterbi. rewrite !length_app. simpl.
    apply decode_ext. intros i j Hi Hj. unfold Poisson.emission.
    by rewrite !lookup_app_l by lia. }
  split; [| split; [exact HP |]].
  - unfold Durbin.run_viterbi. simpl. apply decode_ext.
    intros i j Hi Hj. unfold Durbin.emission.
    destruct i as [| i]; [lia | done].
  - unfold Poisson.main. by rewrite HP.
Qed.

(** ** A decode that returns *)

Lemma mget_fresh_mat g n j i :
  (j < 2)%nat -> (i < n)%nat -> mget (fresh_mat g n) j i = Some (g j i).
Proof.
  intros Hj Hi. unfold mget, fresh_mat.
  destruct j as [| [| j]]; [| | lia]; simpl;
    rewrite list_lookup_fmap, lookup_seq_lt by done; done.
Qed.

(** A recursion that ran had at least one observation, kept the shape of
    the tables, filled every cell of the columns from 1 on and left the other
    cells of [ptr] and [pi], and [path], as the allocator handed them out. *)
Lemma fill_inv vmax vargmax a emission h n t :
  shape 2 2 a ->
  fill vmax vargmax a emission h n = Some t ->
  (1 <= n)%nat /\ dims n t /\
  path t = h_path h <$> seq 0 n /\
  (forall i j, (1 <= i < n)%nat -> (j < 2)%nat ->
     filled vmax vargmax a emission t i j) /\
  (forall j, (j < 2)%nat ->
     mget (ptr t) j 0 = Some (h_ptr h j 0) /\
     mget (pi t) j 0 = Some (h_pi h j 0)).
Proof.
  intros Ha Hrun. unfold fill in Hrun.
  assert (Hn : (1 <= n)%nat).
  { destruct n; [| lia]. unfold reached in Hrun. by rewrite init_empty in Hrun. }
  split; [done |].
  destruct (reached_run vmax vargmax a emission Ha h n n)
    as (t0 & t' & E0 & E & D & P & _ & _ & _ & A & F); [lia | |].
  { intros i j Hi Hj. eapply reached_needs_emission; [exact Hrun | lia | lia | done]. }
  assert (t' = t) as -> by congruence.
  split; [done |]. split; [done |]. split; [done |].
  intros j Hj.
  destruct (init_run h n Hn) as (t0' & E0' & _ & _ & _ & _ & _ & HP & HPi & _).
  assert (t0' = t0) as -> by congruence.
  destruct (A j 0%nat) as (_ & -> & ->); [lia |].
  rewrite HP, HPi. by rewrite !mget_fresh_mat by lia.
Qed.

(** The loop of the traceback leaves in [path[i]], for every [i] it visits,
    the backpointer of the state it left in [path[i + 1]]. *)
Lemma back_loop_chain m t t' :
  for_each back (rev (seq 1 m)) t = Some t' ->
  forall i, (1 <= i <= m)%nat ->
    exists s p, path t' !! (i + 1)%nat = Some s /\
      mget_int (ptr t') s (i + 1) = Some p /\
      path t' !! i = Some (C.int_of_double p).
Proof.
  revert t. induction m as [| m IH]; intros t Hrun i Hi; [lia |].
  rewrite rev_seq_S in Hrun. simpl in Hrun.
  apply bind_Some in Hrun as (t1 & Hback & Hrun).
  apply back_inv in Hback as (s & p & Hs & Hp & Hlen & ->).
  destruct (decide (i = S m)) as [-> |]; [| apply (IH _ Hrun); lia].
  apply back_loop_keeps in Hrun as (_ & -> & _ & _ & _ & Hpath).
  exists s, p. rewrite !Hpath by lia. cbn [path ptr].
  rewrite list_lookup_insert_ne by lia.
  split; [done |]. split; [done |]. by apply list_lookup_insert_eq.
Qed.

Lemma traceback_chain vargmax n t t' :
  traceback vargmax n t = Some t' ->
  forall i, (1 <= i <= n - 2)%nat ->
    exists s p, path t' !! (i + 1)%nat = Some s /\
      mget_int (ptr t') s (i + 1) = Some p /\
      path t' !! i = Some (C.int_of_double p).
Proof.
  unfold traceback. intros H.
  apply bind_Some in H as (p0 & _ & H). apply bind_Some in H as (p1 & _ & H).
  apply bind_Some in H as (pth & _ & H). by eapply back_loop_chain.
Qed.

(** X2.  A decode that returns had at least one observation, and returns
    three tables of two rows of n cells and a path of n elements, n the
    length of the sequence. *)
Theorem X2_path_length `{M : libm} (h : heap) (seq : list Z) (t : tables) :
  Poisson.viterbi seq = Some t \/ Durbin.run_viterbi h seq = Some t ->
  (1 <= length seq)%nat /\ length (path t) = length seq /\
  shape 2 (length seq) (vprob t) /\ shape 2 (length seq) (ptr t) /\
  shape 2 (length seq) (pi t).
Proof.
  assert (Hgen : forall vmax vargmax a emission h',
            shape 2 2 a ->
            decode vmax vargmax a emission h' (length seq) = Some t ->
            (1 <= length seq)%nat /\ length (path t) = length seq /\
            shape 2 (length seq) (vprob t) /\ shape 2 (length seq) (ptr t) /\
            shape 2 (length seq) (pi t)).
  { intros vmax vargmax a emission h' Ha Hrun. unfold decode in Hrun.
    apply bind_Some in Hrun as (u & Hfill & Htb).
    apply fill_inv in Hfill as (Hn & (SV & SP & SPi & L) & _); [| done].
    apply traceback_inv in Htb as (_ & _ & _ & _ & _ & -> & -> & -> & _ & L' & _);
      [| done | done].
    done. }
  intros [H | H].
  - by apply (Hgen _ _ _ _ _ poisson_a_shape H).
  - by apply (Hgen _ _ _ _ _ durbin_a_shape H).
Qed.

Lemma X2_path_length_witness :
  exists t, Durbin.run_viterbi (M := Rounded.points) stale [0; 5; 5]%Z = Some t /\
    length (path t) = 3%nat.
Proof.
  destruct (Durbin.run_viterbi (M := Rounded.points) stale [0; 5; 5]%Z)
    as [t |] eqn:E; [| vm_compute in E; discriminate].
  exists t. split; [done |].
  by destruct (@X2_path_length Rounded.points stale [0; 5; 5]%Z t (or_intror E))
    as (_ & L & _).
Defined.

(** X3.  In a decode that returns, the path follows the backpointers: for
    1 <= i <= n - 2, [path[i]] is [ptr[path[i + 1]][i + 1]] converted to
    [int], and [path[i + 1]] is a row of [ptr]. *)
Theorem X3_path_follows_backpointers `{M : libm} (h : heap) (seq : list Z)
    (t : tables) (i : nat) :
  Poisson.viterbi seq = Some t \/ Durbin.run_viterbi h seq = Some t ->
  (1 <= i <= length seq - 2)%nat ->
  exists s p, path t !! (i + 1)%nat = Some s /\
    mget_int (ptr t) s (i + 1) = Some p /\
    path t !! i = Some (C.int_of_double p).
Proof.
  intros [H | H] Hi.
  - apply poisson_viterbi_inv in H as (u & _ & Htb). by eapply traceback_chain.
  - apply durbin_run_viterbi_inv in H as (u & _ & Htb). by eapply traceback_chain.
Qed.

Lemma X3_path_follows_backpointers_witness :
  exists t s p,
    Durbin.run_viterbi (M := Rounded.points) stale [0; 5; 5]%Z = Some t /\
    path t !! 2%nat = Some s /\ mget_int (ptr t) s 2 = Some p /\
    path t !! 1%nat = Some (C.int_of_double p).
Proof.
  destruct (Durbin.run_viterbi (M := Rounded.points) stale [0; 5; 5]%Z)
    as [t |] eqn:E; [| vm_compute in E; discriminate].
  destruct (@X3_path_follows_backpointers Rounded.points stale [0; 5; 5]%Z t 1
              (or_intror E)) as (s & p & H1 & H2 & H3); [simpl; lia |].
  by exists t, s, p.
Defined.

(** ** The first element of the path *)

(** The Poisson programs decode state 0 at position 0 of every sequence:
    position 0 is the zero of [calloc] when n >= 2, and the tie of the two
    zeroed cells [pi[0][0]] and [pi[1][0]] when n = 1. *)
Lemma poisson_first_state `{M : libm} (seq : list Z) (t : tables) :
  Poisson.viterbi seq = Some t -> path t !! 0%nat = Some 0%Z.
Proof.
  intros H. apply poisson_viterbi_inv in H as (u & Hfill & Htb).
  apply fill_inv in Hfill as (Hn & (_ & _ & _ & L) & P & _ & H0);
    [| apply poisson_a_shape].
  apply traceback_inv in Htb as (p0 & p1 & Hp0 & Hp1 & Hlast & _ & _ & _ & _ & _ & Hhead);
    [| done | done].
  destruct (decide (length seq = 1%nat)) as [E |].
  - rewrite E in Hp0, Hp1, Hlast. simpl in Hp0, Hp1, Hlast.
    destruct (H0 0%nat) as [_ A0]; [lia |]. destruct (H0 1%nat) as [_ A1]; [lia |].
    rewrite A0 in Hp0. rewrite A1 in Hp1. simpl in Hp0, Hp1.
    inversion Hp0; inversion Hp1; subst. exact Hlast.
  - rewrite Hhead by lia. rewrite P.
    by rewrite list_lookup_fmap, lookup_seq_lt by lia.
Qed.

(** X4.  Whatever the observations, a decode of the Poisson programs that
    returns has state 0 at position 0 of the path, and [main] prints 1
    first. *)
Theorem X4_poisson_first_state `{M : libm} (seq : list Z) (t : tables) :
  Poisson.viterbi seq = Some t ->
  path t !! 0%nat = Some 0%Z /\
  exists out, Poisson.main seq = Some out /\ out !! 0%nat = Some 1%Z.
Proof.
  intros H. pose proof (poisson_first_state seq t H) as H0.
  split; [done |]. unfold Poisson.main. rewrite H. simpl.
  eexists. split; [done |]. by rewrite list_lookup_fmap, H0.
Qed.

Lemma X4_poisson_first_state_witness :
  exists t out, Poisson.viterbi (M := Rounded.points) [0; 0]%Z = Some t /\
    path t !! 0%nat = Some 0%Z /\
    Poisson.main (M := Rounded.points) [0; 0]%Z = Some out /\
    out !! 0%nat = Some 1%Z.
Proof.
  destruct (Poisson.viterbi (M := Rounded.points) [0; 0]%Z) as [t |] eqn:E;
    [| vm_compute in E; discriminate].
  destruct (@X4_poisson_first_state Rounded.points [0; 0]%Z t E)
    as (H0 & out & Hmain & Hout).
  by exists t, out.
Defined.

(** X5.  Two decodes of the Durbin program on the same sequence of two or
    more symbols, in whatever storage [malloc] returned, give the same path
    from position 1 on; position 0 of the path holds what [malloc] returned
    there. *)
Theorem X5_durbin_path_and_storage `{M : libm} (h1 h2 : heap) (seq : list Z)
    (t1 t2 : tables) :
  (2 <= length seq)%nat ->
  Durbin.run_viterbi h1 seq = Some t1 -> Durbin.run_viterbi h2 seq = Some t2 ->
  path t1 !! 0%nat = Some (h_path h1 0) /\
  forall i, (1 <= i < length seq)%nat -> path t1 !! i = path t2 !! i.
Proof. apply durbin_path_determined. Qed.

Lemma X5_durbin_path_and_storage_witness :
  exists t1 t2,
    Durbin.run_viterbi (M := Rounded.points) zeroed [0; 5; 5]%Z = Some t1 /\
    Durbin.run_viterbi (M := Rounded.points) stale [0; 5; 5]%Z = Some t2 /\
    path t1 !! 0%nat = Some 0%Z /\
    forall i, (1 <= i < 3)%nat -> path t1 !! i = path t2 !! i.
Proof.
  destruct (Durbin.run_viterbi (M := Rounded.points) zeroed [0; 5; 5]%Z)
    as [t1 |] eqn:E1; [| vm_compute in E1; discriminate].
  destruct (Durbin.run_viterbi (M := Rounded.points) stale [0; 5; 5]%Z)
    as [t2 |] eqn:E2; [| vm_compute in E2; discriminate].
  exists t1, t2. split; [done |]. split; [done |].
  apply (@X5_durbin_path_and_storage Rounded.points zeroed stale [0; 5; 5]%Z t1 t2);
    [simpl; lia | exact E1 | exact E2].
Defined.

(** ** Decodes that complete *)

(** X6.  The Durbin program decodes every sequence of two or more symbols
    whose symbols from position 1 on are rows of the emission table: no
    access leaves an array, and every element of the path from position 1 on
    is state 0 or state 1. *)
Theorem X6_durbin_completes `{M : libm} (h : heap) (seq : list Z) :
  (2 <= length seq)%nat -> Forall Durbin.in_table (tail seq) ->
  exists t, Durbin.run_viterbi h seq = Some t /\
    forall i, (1 <= i < length seq)%nat ->
      exists s, path t !! i = Some s /\ bit s.
Proof.
  intros Hn Hseq.
  destruct (durbin_run h seq ltac:(lia) Hseq) as (u & t & _ & Hrun & _ & Hbits).
  by exists t.
Qed.

Lemma X6_durbin_completes_witness :
  exists t, Durbin.run_viterbi (M := Rounded.points) stale [9; 0; 5]%Z = Some t /\
    forall i, (1 <= i < 3)%nat -> exists s, path t !! i = Some s /\ bit s.
Proof.
  apply (@X6_durbin_completes Rounded.points stale [9; 0; 5]%Z); [simpl; lia |].
  simpl. repeat constructor; unfold Durbin.in_table; lia.
Defined.

Lemma traceback_run_states vargmax n t :
  dims n t -> (1 <= n)%nat ->
  (forall p0 p1, mget (pi t) 0 (n - 1) = Some p0 ->
     mget (pi t) 1 (n - 1) = Some p1 -> bit (vargmax p0 p1)) ->
  (forall i j, (1 <= i < n)%nat -> (j < 2)%nat ->
     exists b, bit b /\ mget (ptr t) j i = Some (C.double_of_int b)) ->
  exists t', traceback vargmax n t = Some t' /\
    forall i, (1 <= i < n)%nat -> exists s, path t' !! i = Some s /\ bit s.
Proof.
  intros (_ & _ & HPi & Hlen) Hn Hbit Hptr. unfold traceback.
  destruct (mget_is_Some 2 n (pi t) 0 (n - 1)) as [p0 Hp0]; [done | lia | lia |].
  destruct (mget_is_Some 2 n (pi t) 1 (n - 1)) as [p1 Hp1]; [done | lia | lia |].
  specialize (Hbit p0 p1 Hp0 Hp1).
  rewrite Hp0, Hp1. simpl. rewrite lset_Some by lia. simpl.
  destruct (decide (n = 1)) as [-> |].
  - simpl. eexists. split; [done |]. intros i Hi. lia.
  - set (t1 := {| vprob := vprob t; ptr := ptr t; pi := pi t;
                  path := <[(n - 1)%nat := vargmax p0 p1]> (path t);
                  written := written t |}).
    destruct (back_loop_run n (n - 2) t1) as (t' & Hrun & Hbits).
    + simpl. by rewrite length_insert.
    + lia.
    + done.
    + exists (vargmax p0 p1). split; [| done]. simpl.
      replace (n - 2 + 1)%nat with (n - 1)%nat by lia.
      apply list_lookup_insert_eq. lia.
    + exists t'. split; [done |]. intros i Hi.
      destruct (decide (i = (n - 1)%nat)) as [-> |]; [| apply Hbits; lia].
      apply back_loop_keeps in Hrun as (_ & _ & _ & _ & _ & Hpath).
      rewrite Hpath by lia. exists (vargmax p0 p1). split; [| done]. simpl.
      apply list_lookup_insert_eq. lia.
Qed.

(** X7.  The recursion of the Poisson programs runs on every sequence of
    two or more counts.  When every backpointer it stored is 0.0 or 1.0 and the
    [argmax] of the last column of [pi] is 0 or 1, the traceback runs too,
    every element of the path is state 0 or 1, and [main] prints 1 or 2 for
    it. *)
Theorem X7_poisson_completes `{M : libm} (seq : list Z) :
  (2 <= length seq)%nat ->
  exists t, Poisson.scores seq = Some t /\
    ((forall i j p, (1 <= i < length seq)%nat -> (j < 2)%nat ->
        mget (ptr t) j i = Some p -> p = 0%float \/ p = 1%float) ->
     (forall p0 p1, mget (pi t) 0 (length seq - 1) = Some p0 ->
        mget (pi t) 1 (length seq - 1) = Some p1 ->
        bit (Poisson.argmax p0 p1)) ->
     exists t' out, Poisson.viterbi seq = Some t' /\
       Poisson.main seq = Some out /\
       forall i, (i < length seq)%nat ->
         exists s, path t' !! i = Some s /\ bit s /\
           out !! i = Some (s + 1)%Z).
Proof.
  intros Hn2. assert (Hn : (1 <= length seq)%nat) by lia.
  destruct (poisson_during_run seq (length seq))
    as (t0 & t & _ & E & D & _ & _ & _ & _ & _ & F); [lia |].
  exists t. split; [exact E |]. intros Hptr Hlast.
  destruct (traceback_run_states Poisson.argmax (length seq) t D Hn Hlast)
    as (t' & Htb & Hbits).
  { intros i j Hi Hj.
    destruct (mget_is_Some 2 (length seq) (ptr t) j i) as [p Hp];
      [by destruct D as (_ & ? & _) | done | lia |].
    destruct (Hptr i j p Hi Hj Hp) as [-> | ->].
    - exists 0%Z. split; [by left | done].
    - exists 1%Z. split; [by right | done]. }
  assert (Hrun : Poisson.viterbi seq = Some t').
  { unfold Poisson.viterbi, decode.
    change (fill Poisson.max Poisson.argmax Poisson.a (Poisson.emission seq)
              zeroed (length seq)) with (Poisson.during seq (length seq)).
    by rewrite E. }
  exists t'. eexists. split; [exact Hrun |].
  unfold Poisson.main. rewrite Hrun. simpl. split; [done |].
  intros i Hi.
  assert (Hs : exists s, path t' !! i = Some s /\ bit s).
  { destruct i as [| i]; [| apply Hbits; lia].
    exists 0%Z. split; [by apply (poisson_first_state seq) | by left]. }
  destruct Hs as (s & Hs & Hb). exists s. split; [done |]. split; [done |].
  rewrite list_lookup_fmap, Hs. simpl. by destruct Hb as [-> | ->].
Qed.

Lemma X7_poisson_completes_witness :
  exists t, Poisson.scores (M := Rounded.points) [0; 0]%Z = Some t /\
    exists t' out, Poisson.viterbi (M := Rounded.points) [0; 0]%Z = Some t' /\
      Poisson.main (M := Rounded.points) [0; 0]%Z = Some out /\
      forall i, (i < 2)%nat ->
        exists s, path t' !! i = Some s /\ bit s /\ out !! i = Some (s + 1)%Z.
Proof.
  destruct (@X7_poisson_completes Rounded.points [0; 0]%Z) as (t & E & H);
    [simpl; lia |].
  exists t. split; [exact E |]. vm_compute in E. inversion E; subst t.
  apply H.
  - intros i j p Hi Hj Hp. simpl in Hi.
    assert (i = 1%nat) as -> by lia.
    destruct j as [| [| j]]; [| | lia]; vm_compute in Hp; inversion Hp; auto.
  - intros p0 p1 H0 H1. vm_compute in H0, H1. inversion H0; inversion H1.
    vm_compute. by left.
Defined.

(** ** [max] and [argmax] *)

(** X8.  The three-branch [max] of the two [viterbi.c] and the two-branch
    [max] of [viterbi_durbin.c] are the same function on all doubles; it
    returns one of its two arguments, and neither argument is greater than
    what it returns. *)
Theorem X8_max_is_maximum (x y : float) :
  Poisson.max x y = Durbin.max x y /\
  (Durbin.max x y = x \/ Durbin.max x y = y) /\
  (Durbin.max x y <? x)%float = false /\
  (Durbin.max x y <? y)%float = false.
Proof. split; [apply max_same | apply max_upper]. Qed.

Lemma ltb_nan (x : float) :
  (x <? nan)%float = false /\ (nan <? x)%float = false.
Proof.
  rewrite !FloatAxioms.ltb_spec. change (Prim2SF nan) with S754_nan.
  unfold SFltb, SFcompare. by destruct (Prim2SF x).
Qed.

(** X9.  With a NaN among the two scores no comparison holds: [max] returns
    its second argument (so [max(x, NaN)] is NaN and [max(NaN, y)] is y), the
    [argmax] of [viterbi_durbin.c] returns 1 and the [argmax] of the two
    [viterbi.c] returns its second argument converted to [int]. *)
Theorem X9_nan_scores (x y : float) :
  Durbin.max x nan = nan /\ Durbin.max nan y = y /\
  Poisson.max x nan = nan /\ Poisson.max nan y = y /\
  Durbin.argmax x nan = 1%Z /\ Durbin.argmax nan y = 1%Z /\
  Poisson.argmax x nan = C.int_of_double nan /\
  Poisson.argmax nan y = C.int_of_double y.
Proof.
  destruct (ltb_nan x) as [Hx1 Hx2]. destruct (ltb_nan y) as [Hy1 Hy2].
  unfold Durbin.max, Poisson.max, Durbin.argmax, Poisson.argmax.
  by rewrite Hx1, Hx2, Hy1, Hy2.
Qed.

(** X10.  Where one score is less than the other the two [argmax] agree and
    return the index of the greater score; where the scores are equal the
    [argmax] of [viterbi_durbin.c] returns 1 and the [argmax] of the two
    [viterbi.c] returns the score converted to [int]. *)
Theorem X10_argmax_cases (x y : float) :
  ((y <? x)%float = true ->
     Poisson.argmax x y = 0%Z /\ Durbin.argmax x y = 0%Z) /\
  ((x <? y)%float = true ->
     Poisson.argmax x y = 1%Z /\ Durbin.argmax x y = 1%Z) /\
  ((x =? y)%float = true ->
     Poisson.argmax x y = C.int_of_double y /\ Durbin.argmax x y = 1%Z).
Proof.
  split; [| split].
  - intros H. unfold Poisson.argmax, Durbin.argmax. by rewrite H.
  - intros H. unfold Poisson.argmax, Durbin.argmax.
    by rewrite (ltb_asym _ _ H), H.
  - intros H. split; [by apply poisson_argmax_tie | by apply durbin_argmax_tie].
Qed.

(** ** The factorial of [poisson] *)

Lemma wrap_int_is_int (z : Z) : C.is_int (C.wrap_int z).
Proof.
  unfold C.is_int, C.wrap_int, C.INT_MIN, C.INT_MAX.
  pose proof (Z.mod_pos_bound (z + 2 ^ 31) (2 ^ 32) ltac:(lia)). lia.
Qed.

Lemma wrap_int_id (z : Z) : C.is_int z -> C.wrap_int z = z.
Proof.
  unfold C.is_int, C.wrap_int, C.INT_MIN, C.INT_MAX. intros Hz.
  rewrite Z.mod_small by lia. lia.
Qed.

Lemma wrap_int_shift (z q : Z) : C.wrap_int (z + q * 2 ^ 32) = C.wrap_int z.
Proof.
  unfold C.wrap_int.
  replace (z + q * 2 ^ 32 + 2 ^ 31)%Z with (z + 2 ^ 31 + q * 2 ^ 32)%Z by lia.
  by rewrite Z_mod_plus_full.
Qed.

Lemma wrap_int_mul (x y : Z) :
  C.wrap_int (C.wrap_int x * y) = C.wrap_int (x * y).
Proof.
  assert (H : exists q, C.wrap_int x = (x + q * 2 ^ 32)%Z).
  { exists (- ((x + 2 ^ 31) / 2 ^ 32))%Z. unfold C.wrap_int.
    pose proof (Z.div_mod (x + 2 ^ 31) (2 ^ 32) ltac:(lia)). lia. }
  destruct H as [q ->].
  replace ((x + q * 2 ^ 32) * y)%Z with (x * y + (q * y) * 2 ^ 32)%Z by lia.
  apply wrap_int_shift.
Qed.

(** The loop multiplies what [factk] holds by i! in [int] arithmetic. *)
Lemma factk_loop_spec (i : nat) (f : Z) :
  C.is_int f -> Poisson.factk_loop i f = C.wrap_int (f * factorial i).
Proof.
  revert f. induction i as [| i IH]; intros f Hf.
  - simpl. rewrite Z.mul_1_r. by rewrite wrap_int_id.
  - cbn [Poisson.factk_loop factorial].
    rewrite IH by apply wrap_int_is_int. rewrite wrap_int_mul.
    f_equal. lia.
Qed.

Lemma factorial_pos (n : nat) : (1 <= factorial n)%Z.
Proof. induction n as [| n IH]; cbn [factorial]; [lia | nia]. Qed.

Lemma factorial_mono (n m : nat) : (n <= m)%nat -> (factorial n <= factorial m)%Z.
Proof.
  induction 1 as [| m _ IH]; [lia |]. cbn [factorial].
  pose proof (factorial_pos m). nia.
Qed.

Lemma factorial_34 (n : nat) :
  (34 <= n)%nat -> exists q, factorial n = (q * 2 ^ 32)%Z.
Proof.
  induction 1 as [| m _ [q IH]].
  - exists (factorial 34 / 2 ^ 32)%Z. by vm_compute.
  - exists (Z.of_nat (S m) * q)%Z. cbn [factorial]. rewrite IH. lia.
Qed.

Lemma int_of_double_is_int (x : float) : C.is_int (C.int_of_double x).
Proof.
  unfold C.int_of_double, C.is_int. destruct (C.trunc x) as [z |].
  - case_decide; [done |]. by vm_compute.
  - by vm_compute.
Qed.

(** X11.  For a count k >= 1 (a double whose conversions to [int] give z and
    z - 1 for k and k - 1), the [factk] of [poisson] is z! reduced to a 32-bit
    two's complement [int]: it is z! exactly when z <= 12, and it is 0 from
    z = 34 on, where [poisson] divides by zero. *)
Theorem X11_factk (k : float) (z : Z) :
  (k =? 0)%float = false -> C.int_of_double k = z ->
  C.int_of_double (k - 1)%float = (z - 1)%Z -> (1 <= z)%Z ->
  Poisson.factk k = C.wrap_int (factorial (Z.to_nat z)) /\
  (Poisson.factk k = factorial (Z.to_nat z) <-> (z <= 12)%Z) /\
  ((34 <= z)%Z -> Poisson.factk k = 0%Z).
Proof.
  intros Hk0 Hk Hk1 Hz.
  assert (Hf : Poisson.factk k = C.wrap_int (factorial (Z.to_nat z))).
  { unfold Poisson.factk. rewrite Hk0, Hk, Hk1.
    rewrite factk_loop_spec by (rewrite <- Hk; apply int_of_double_is_int).
    replace (Z.to_nat z) with (S (Z.to_nat (z - 1))) by lia.
    cbn [factorial]. rewrite Nat2Z.inj_succ, Z2Nat.id by lia.
    do 2 f_equal. lia. }
  split; [exact Hf |]. rewrite Hf. split; [split |].
  - intros Heq. destruct (decide (z <= 12)%Z) as [| Hgt]; [done | exfalso].
    pose proof (wrap_int_is_int (factorial (Z.to_nat z))) as [_ Hmax].
    pose proof (factorial_mono 13 (Z.to_nat z) ltac:(lia)) as Hmono.
    rewrite Heq in Hmax. change (factorial 13) with 6227020800%Z in Hmono.
    unfold C.INT_MAX in Hmax. lia.
  - intros Hle. apply wrap_int_id.
    pose proof (factorial_pos (Z.to_nat z)).
    pose proof (factorial_mono (Z.to_nat z) 12 ltac:(lia)) as Hmono.
    change (factorial 12) with 479001600%Z in Hmono.
    unfold C.is_int, C.INT_MIN, C.INT_MAX. lia.
  - intros Hge. destruct (factorial_34 (Z.to_nat z)) as [q ->]; [lia |].
    apply (wrap_int_shift 0 q).
Qed.

Lemma X11_factk_witness :
  Poisson.factk 5 = C.wrap_int (factorial (Z.to_nat 5)) /\
  (Poisson.factk 5 = factorial (Z.to_nat 5) <-> (5 <= 12)%Z) /\
  ((34 <= 5)%Z -> Poisson.factk 5 = 0%Z).
Proof.
  apply (X11_factk 5%float 5%Z); [by vm_compute | by vm_compute | by vm_compute | lia].
Defined.

(** ** The sequence read by [viterbi.c] *)

Lemma last_cons_default {A} (x d : A) (l : list A) :
  List.last (x :: l) d = List.last l x.
Proof.
  revert x d. induction l as [| y l IH]; intros x d; [done |].
  change (List.last (x :: y :: l) d) with (List.last (y :: l) d).
  by rewrite (IH y d), (IH y x).
Qed.

Lemma read_sequence_eof (n : nat) (num : Z) :
  Poisson.read_sequence n [] num = replicate n num.
Proof. induction n as [| n IH]; simpl; [done |]. by rewrite IH. Qed.

(** X12.  The reading loop of [viterbi.c] always delivers n observations.
    They are the first n numbers of the file when it holds that many;
    when it holds fewer, they are the numbers of the file followed by
    repetitions of the last number read (of what [num] held, for a file with
    no number). *)
Theorem X12_read_sequence (n : nat) (file : list Z) (num : Z) :
  length (Poisson.read_sequence n file num) = n /\
  ((n <= length file)%nat -> Poisson.read_sequence n file num = take n file) /\
  ((length file < n)%nat ->
     Poisson.read_sequence n file num =
       file ++ replicate (n - length file) (List.last file num)).
Proof.
  revert file num. induction n as [| n IH]; intros file num.
  - split; [done |]. split; [by intros _; rewrite take_0 | simpl; lia].
  - destruct file as [| x rest].
    + cbn [Poisson.read_sequence]. rewrite read_sequence_eof.
      split; [simpl; by rewrite length_replicate |].
      split; [simpl; lia | done].
    + cbn [Poisson.read_sequence]. destruct (IH rest x) as (L & Hfull & Hshort).
      split; [simpl; by rewrite L |]. split.
      * intros Hn. simpl in Hn. simpl. rewrite Hfull by lia. done.
      * intros Hn. simpl in Hn. rewrite Hshort by lia.
        by rewrite last_cons_default.
Qed.

(** ** The printed path *)

(** The output without its line breaks. *)
Fixpoint strip (s : string) : string :=
  match s with
  | EmptyString => EmptyString
  | String c r =>
      if Ascii.eqb c (Ascii.ascii_of_nat 10) then strip r
      else String c (strip r)
  end.

(** One letter for each element of the path that is a state. *)
Fixpoint letters (path : list Z) : string :=
  match path with
  | [] => EmptyString
  | s :: r =>
      ((if decide (s = 0%Z) then "F"
        else if decide (s = 1%Z) then "L" else EmptyString) ++ letters r)%string
  end.

Lemma string_app_assoc (s1 s2 s3 : string) :
  ((s1 ++ s2) ++ s3 = s1 ++ (s2 ++ s3))%string.
Proof. induction s1 as [| c s1 IH]; simpl; [done | by rewrite IH]. Qed.

Lemma strip_app (s1 s2 : string) :
  strip (s1 ++ s2) = (strip s1 ++ strip s2)%string.
Proof.
  induction s1 as [| c s1 IH]; simpl; [done |].
  destruct (Ascii.eqb c (Ascii.ascii_of_nat 10)); simpl; by rewrite IH.
Qed.

Lemma strip_show_state (i : nat) (s : Z) (r : string) :
  strip (Durbin.show_state i s ++ r) =
    ((if decide (s = 0%Z) then "F"
      else if decide (s = 1%Z) then "L" else EmptyString) ++ strip r)%string.
Proof.
  unfold Durbin.show_state. rewrite strip_app.
  repeat case_decide; subst; try done.
Qed.

Lemma strip_concat_show (f : nat -> Z -> string) (path : list Z) (r : string) :
  (forall i s r', strip (f i s ++ r') =
     ((if decide (s = 0%Z) then "F"
       else if decide (s = 1%Z) then "L" else EmptyString) ++ strip r')%string) ->
  strip (String.concat EmptyString (imap f path) ++ r) =
    (letters path ++ strip r)%string.
Proof.
  revert f. induction path as [| s path IH]; intros f Hf; [done |].
  rewrite imap_cons. cbn [letters].
  assert (E : (String.concat EmptyString (f 0%nat s :: imap (f ∘ S) path) ++ r =
               f 0%nat s ++ (String.concat EmptyString (imap (f ∘ S) path) ++ r))%string).
  { destruct (imap (f ∘ S) path) as [| y ys] eqn:Ey; cbn [String.concat].
    - done.
    - cbn [String.append]. by rewrite string_app_assoc. }
  rewrite E, Hf, IH; [| intros i s' r'; apply Hf].
  by rewrite string_app_assoc.
Qed.

(** X13.  What the Durbin program prints for a path is, line breaks apart,
    one letter for each element that is a state ([F] for 0, [L] for 1), in
    order; an element that is neither 0 nor 1 is passed over without
    notice. *)
Theorem X13_show_letters (path : list Z) :
  strip (Durbin.show path) = letters path.
Proof.
  unfold Durbin.show. rewrite strip_concat_show by apply strip_show_state.
  change (strip Durbin.newline) with EmptyString.
  induction (letters path) as [| c l IH]; simpl; [done | by rewrite IH].
Qed.

(** ** What a column of the tables depends on *)

Lemma fill_first_column vmax vargmax a emission h n t :
  shape 2 2 a ->
  fill vmax vargmax a emission h n = Some t ->
  mget (vprob t) 0 0 = Some 1%float /\ mget (vprob t) 1 0 = Some 0%float.
Proof.
  intros Ha Hrun. pose proof Hrun as Hrun'.
  apply fill_inv in Hrun' as (Hn & _); [| done]. unfold fill in Hrun.
  destruct (reached_run vmax vargmax a emission Ha h n n)
    as (t0 & t' & _ & E & _ & _ & _ & V0 & V1 & _); [lia | |].
  { intros i j Hi Hj. eapply reached_needs_emission; [exact Hrun | lia | lia | done]. }
  assert (t' = t) as -> by congruence. done.
Qed.

(** Two recursions whose emission terms are the same up to column [m - 1]
    fill the same columns up to [m - 1]. *)
Lemma filled_same_upto vmax vargmax a e1 e2 m t1 t2 :
  (forall j, (j < 2)%nat -> mget (vprob t1) j 0 = mget (vprob t2) j 0) ->
  (forall i j, (1 <= i < m)%nat -> (j < 2)%nat -> filled vmax vargmax a e1 t1 i j) ->
  (forall i j, (1 <= i < m)%nat -> (j < 2)%nat -> filled vmax vargmax a e2 t2 i j) ->
  (forall i j, (1 <= i < m)%nat -> (j < 2)%nat -> e1 i j = e2 i j) ->
  forall i j, (i < m)%nat -> (j < 2)%nat ->
    mget (vprob t1) j i = mget (vprob t2) j i /\
    ((1 <= i)%nat ->
       mget (ptr t1) j i = mget (ptr t2) j i /\
       mget (pi t1) j i = mget (pi t2) j i).
Proof.
  intros H0 F1 F2 He.
  assert (HV : forall i, (i < m)%nat -> forall j, (j < 2)%nat ->
            mget (vprob t1) j i = mget (vprob t2) j i).
  { induction i as [| i IH]; intros Hi j Hj; [by apply H0 |].
    destruct (F1 (S i) j) as (v0 & v1 & a0 & a1 & em & A0 & A1 & Aa0 & Aa1 & Aem & AV & _);
      [lia | done |].
    destruct (F2 (S i) j) as (w0 & w1 & b0 & b1 & em' & B0 & B1 & Ba0 & Ba1 & Bem & BV & _);
      [lia | done |].
    rewrite (He (S i) j) in Aem by (done || lia).
    replace (S i - 1)%nat with i in * by lia.
    rewrite (IH ltac:(lia) 0%nat ltac:(lia)) in A0.
    rewrite (IH ltac:(lia) 1%nat ltac:(lia)) in A1.
    rewrite AV, BV. congruence. }
  intros i j Hi Hj. split; [by apply HV |]. intros Hi1.
  destruct (F1 i j) as (v0 & v1 & a0 & a1 & em & A0 & A1 & Aa0 & Aa1 & _ & _ & AP & APi);
    [lia | done |].
  destruct (F2 i j) as (w0 & w1 & b0 & b1 & em' & B0 & B1 & Ba0 & Ba1 & _ & _ & BP & BPi);
    [lia | done |].
  rewrite (HV (i - 1)%nat ltac:(lia) 0%nat ltac:(lia)) in A0.
  rewrite (HV (i - 1)%nat ltac:(lia) 1%nat ltac:(lia)) in A1.
  rewrite AP, BP, APi, BPi. split; congruence.
Qed.

(** The cells [(j, i)] of the three tables hold the same in [t1] and [t2]
    ([ptr] and [pi] from column 1 on, where they are assigned). *)
Definition same_cell (t1 t2 : tables) (i j : nat) : Prop :=
  mget (vprob t1) j i = mget (vprob t2) j i /\
  ((1 <= i)%nat ->
     mget (ptr t1) j i = mget (ptr t2) j i /\
     mget (pi t1) j i = mget (pi t2) j i).

(** X14.  A column of the tables depends on the observations before it
    only.  For two sequences with the same first m observations, the
    recursion of the Durbin program (in whatever storage) fills the columns
    below m alike, and the recursion of the Poisson programs the columns up
    to m: decoding a longer sequence extends the tables of a shorter one. *)
Theorem X14_columns_of_a_prefix `{M : libm} (h1 h2 : heap) (seq1 seq2 : list Z)
    (m : nat) :
  take m seq1 = take m seq2 ->
  (forall t1 t2 i j,
     Durbin.scores h1 seq1 = Some t1 -> Durbin.scores h2 seq2 = Some t2 ->
     (i < m)%nat -> (i < length seq1)%nat -> (i < length seq2)%nat ->
     (j < 2)%nat -> same_cell t1 t2 i j) /\
  (forall t1 t2 i j,
     Poisson.scores seq1 = Some t1 -> Poisson.scores seq2 = Some t2 ->
     (i <= m)%nat -> (i < length seq1)%nat -> (i < length seq2)%nat ->
     (j < 2)%nat -> same_cell t1 t2 i j).
Proof.
  intros Htake.
  assert (Hseq : forall i, (i < m)%nat -> seq1 !! i = seq2 !! i).
  { intros i Hi. rewrite <- (lookup_take_lt seq1 m i Hi).
    by rewrite Htake, lookup_take_lt. }
  split; intros t1 t2 i j E1 E2 Hi Hi1 Hi2 Hj.
  - pose proof (fill_first_column _ _ _ _ _ _ _ durbin_a_shape E1) as [V10 V11].
    pose proof (fill_first_column _ _ _ _ _ _ _ durbin_a_shape E2) as [V20 V21].
    apply fill_inv in E1 as (_ & _ & _ & F1 & _); [| apply durbin_a_shape].
    apply fill_inv in E2 as (_ & _ & _ & F2 & _); [| apply durbin_a_shape].
    apply (filled_same_upto Durbin.max Durbin.argmax Durbin.a
             (Durbin.emission seq1) (Durbin.emission seq2) (S i)); try done; try lia.
    + intros [| [| j']] Hj'; [congruence | congruence | lia].
    + intros i' j' Hi' Hj'. apply F1; [lia | done].
    + intros i' j' Hi' Hj'. apply F2; [lia | done].
    + intros i' j' Hi' Hj'. unfold Durbin.emission. by rewrite Hseq by lia.
  - pose proof (fill_first_column _ _ _ _ _ _ _ poisson_a_shape E1) as [V10 V11].
    pose proof (fill_first_column _ _ _ _ _ _ _ poisson_a_shape E2) as [V20 V21].
    apply fill_inv in E1 as (_ & _ & _ & F1 & _); [| apply poisson_a_shape].
    apply fill_inv in E2 as (_ & _ & _ & F2 & _); [| apply poisson_a_shape].
    apply (filled_same_upto Poisson.max Poisson.argmax Poisson.a
             (Poisson.emission seq1) (Poisson.emission seq2) (S i)); try done; try lia.
    + intros [| [| j']] Hj'; [congruence | congruence | lia].
    + intros i' j' Hi' Hj'. apply F1; [lia | done].
    + intros i' j' Hi' Hj'. apply F2; [lia | done].
    + intros i' j' Hi' Hj'. unfold Poisson.emission. by rewrite Hseq by lia.
Qed.

Lemma X14_columns_of_a_prefix_witness :
  exists t1 t2,
    Durbin.scores (M := Rounded.points) zeroed [0; 5]%Z = Some t1 /\
    Durbin.scores (M := Rounded.points) stale [0; 5; 5]%Z = Some t2 /\
    forall i j, (i < 2)%nat -> (j < 2)%nat -> same_cell t1 t2 i j.
Proof.
  destruct (Durbin.scores (M := Rounded.points) zeroed [0; 5]%Z)
    as [t1 |] eqn:E1; [| vm_compute in E1; discriminate].
  destruct (Durbin.scores (M := Rounded.points) stale [0; 5; 5]%Z)
    as [t2 |] eqn:E2; [| vm_compute in E2; discriminate].
  exists t1, t2. split; [done |]. split; [done |]. intros i j Hi Hj.
  destruct (@X14_columns_of_a_prefix Rounded.points zeroed stale
              [0; 5]%Z [0; 5; 5]%Z 2 eq_refl) as [HD _].
  apply HD; [exact E1 | exact E2 | lia | simpl; lia | simpl; lia | done].
Defined.

(** X15.  No statement assigns column 0 of [ptr] and [pi]: when a decode
    returns they hold the zeros of [calloc] in the Poisson programs and what
    [malloc] returned in the Durbin program. *)
Theorem X15_column_0_unassigned `{M : libm} (h : heap) (seq : list Z)
    (t : tables) (j : nat) :
  (j < 2)%nat ->
  (Poisson.viterbi seq = Some t ->
     mget (ptr t) j 0 = Some 0%float /\ mget (pi t) j 0 = Some 0%float) /\
  (Durbin.run_viterbi h seq = Some t ->
     mget (ptr t) j 0 = Some (h_ptr h j 0) /\
     mget (pi t) j 0 = Some (h_pi h j 0)).
Proof.
  intros Hj. split; intros H.
  - apply poisson_viterbi_inv in H as (u & Hfill & Htb).
    apply fill_inv in Hfill as (Hn & (_ & _ & _ & L) & _ & _ & H0);
      [| apply poisson_a_shape].
    apply traceback_inv in Htb as (_ & _ & _ & _ & _ & _ & -> & -> & _);
      [| done | done].
    by apply (H0 j).
  - apply durbin_run_viterbi_inv in H as (u & Hfill & Htb).
    apply fill_inv in Hfill as (Hn & (_ & _ & _ & L) & _ & _ & H0);
      [| apply durbin_a_shape].
    apply traceback_inv in Htb as (_ & _ & _ & _ & _ & _ & -> & -> & _);
      [| done | done].
    by apply (H0 j).
Qed.

Lemma X15_column_0_unassigned_witness :
  exists t, Durbin.run_viterbi (M := Rounded.points) stale [0; 5; 5]%Z = Some t /\
    mget (ptr t) 1 0 = Some 3%float /\ mget (pi t) 1 0 = Some 1%float.
Proof.
  destruct (Durbin.run_viterbi (M := Rounded.points) stale [0; 5; 5]%Z)
    as [t |] eqn:E; [| vm_compute in E; discriminate].
  exists t. split; [done |].
  destruct (@X15_column_0_unassigned Rounded.points stale [0; 5; 5]%Z t 1) as [_ HD];
    [lia |].
  exact (HD E).
Defined.
